(** * Asynchronous itinerary worker: generation client, validation, sweep

    A shallow embedding of the Cloudflare worker in [index.js], [jobs.js],
    [llm.js] and [firestore.js], and the properties of its job lifecycle. *)

From Stdlib Require Import PrimFloat.
From Stdlib Require FloatOps Uint63.
From Stdlib Require Import ZArith QArith_base Lia Bool Ascii String List.
From Stdlib Require Import DecimalString.
From stdpp Require Import base option list strings gmap fin_maps.

Local Open Scope Z_scope.

(** ** Results of JavaScript computations

    A JavaScript call either returns a value or throws.  The error type is
    a parameter: most of the code throws plain [Error] objects only, the
    validation step throws Zod's error. *)

Inductive outcome (E A : Type) : Type :=
| Ret (a : A)
| Throw (e : E).
Arguments Ret {E A} a.
Arguments Throw {E A} e.

(** A plain JavaScript [Error]: its [name] and its [message]. *)
Record js_error : Type := JsError { err_name : string; err_message : string }.

(** [new Error(msg)] *)
Definition new_Error (msg : string) : js_error := JsError "Error" msg.

(** ** Values

    [String(n)] for an integer [n], as used in template literals. *)
Definition String_Z (z : Z) : string := NilZero.string_of_int (Z.to_int z).
Definition String_nat (n : nat) : string := NilZero.string_of_uint (Nat.to_uint n).

(** A JavaScript number that [JSON.parse] can produce: a finite value, kept
    as the rational it denotes, or an overflow to plus or minus [Infinity]
    ([JSON.parse] never yields [NaN]). *)
Inductive number : Type :=
| Finite (q : Q)
| Infinity (negative : bool).

(** [Number.isInteger(n)] *)
Definition Number_isInteger (n : number) : bool :=
  match n with
  | Finite q => (Qnum q mod Zpos (Qden q) =? 0)
  | Infinity _ => false
  end.

(** [n < k] for an integer constant [k] *)
Definition number_lt_Z (n : number) (k : Z) : bool :=
  match n with
  | Finite q => (Qnum q <? k * Zpos (Qden q))
  | Infinity negative => negative
  end.

(** A number after [JSON.stringify] and [JSON.parse]: a finite number is
    written as its numeral and read back as itself, a non-finite one is
    written as [null] ([None]). *)
Definition JSON_number (n : number) : option Q :=
  match n with
  | Finite q => Some q
  | Infinity _ => None
  end.

(** Where the code computes with numbers, in the backoff of [llm.js], they
    are kept as what they are, IEEE-754 doubles: [PrimFloat.mul] and
    [PrimFloat.add] are the language's [*] and [+].

    [Math.floor(x)]: the largest integral double not above [x]; zeros,
    infinities and [NaN] are returned as they are. *)
Definition Math_floor (x : float) : float :=
  match FloatOps.Prim2SF x with
  | SpecFloat.S754_finite negative m e =>
      if 0 <=? e then x
      else
        (* |x| = m * 2^e with e < 0, so the integer part is below 2^53 *)
        let q := Z.shiftr (Zpos m) (- e) in
        let integral := Z.shiftl q (- e) =? Zpos m in
        if negative
        then PrimFloat.opp
               (PrimFloat.of_uint63 (Uint63.of_Z (if integral then q else q + 1)))
        else PrimFloat.of_uint63 (Uint63.of_Z q)
  | _ => x
  end.

(** The values [JSON.parse] returns.  An object keeps its properties in
    insertion order; property names are distinct. *)
#[local] Unset Elimination Schemes.
Inductive json : Type :=
| JNull
| JBool (b : bool)
| JNumber (n : number)
| JString (s : string)
| JArray (items : list json)
| JObject (props : list (string * json)).
#[local] Set Elimination Schemes.

(** [obj[key]]: [None] stands for [undefined]. *)
Fixpoint get_prop (key : string) (props : list (string * json)) : option json :=
  match props with
  | [] => None
  | (k, v) :: rest => if String.eqb k key then Some v else get_prop key rest
  end.

(** ** llm.js *)

Module Llm.

(** *** extractFirstJsonArray *)

(** A string is scanned as its sequence of code units. *)
Definition open_bracket : ascii := "["%char.
Definition close_bracket : ascii := "]"%char.

(** [str.indexOf(c)]: the least index holding [c], [None] for [-1]. *)
Fixpoint indexOf (c : ascii) (str : list ascii) : option nat :=
  match str with
  | [] => None
  | x :: rest =>
      if Ascii.eqb x c then Some 0%nat
      else match indexOf c rest with
           | Some i => Some (S i)
           | None => None
           end
  end.

(** [str.slice(start, stop)] for [0 <= start <= stop]. *)
Definition slice (str : list ascii) (start stop : nat) : list ascii :=
  take (stop - start) (drop start str).

(** The [for] loop of [extractFirstJsonArray]: [rest] is [str] from index
    [i] on, [depth] the running depth.  It yields the index at which the
    loop returns, or [None] when the loop runs off the end of the string. *)
Fixpoint scan (rest : list ascii) (i : nat) (depth : Z) : option nat :=
  match rest with
  | [] => None
  | c :: rest' =>
      if Ascii.eqb c open_bracket then scan rest' (S i) (depth + 1)
      else if Ascii.eqb c close_bracket then
        let depth' := depth - 1 in
        if depth' =? 0 then Some i else scan rest' (S i) depth'
      else scan rest' (S i) depth
  end.

Definition extractFirstJsonArray_units (str : list ascii)
  : outcome js_error (list ascii) :=
  match indexOf open_bracket str with
  | None => Throw (new_Error "No JSON array start found")
  | Some start =>
      match scan (drop start str) start 0 with
      | Some i => Ret (slice str start (i + 1))
      | None => Throw (new_Error "No matching ] found for JSON array")
      end
  end.

Definition extractFirstJsonArray (str : string) : outcome js_error string :=
  match extractFirstJsonArray_units (list_ascii_of_string str) with
  | Ret l => Ret (string_of_list_ascii l)
  | Throw e => Throw e
  end.

(** *** fetchWithRetry *)

(** What [choices?.[0]?.message?.content] of the decoded body gives:
    decoding may throw, the content may be [undefined]. *)
Record response : Type := Response {
  status : Z;
  content : outcome js_error (option string)
}.

(** [res.ok] *)
Definition ok (res : response) : bool :=
  (200 <=? status res) && (status res <=? 299).

(** One call of [fetch]: a response, or a rejection (network failure, or
    an [AbortError] once the caller's signal has fired). *)
Inductive fetch_result : Type :=
| Responded (res : response)
| Rejected (err : js_error).

(** The host as the retry loop sees it: the outcome of the n-th call of
    [fetch] and the n-th value of [Math.random()], counted from zero, and
    [Math.pow(x, n)] for a value [n] of the loop counter, whose precision
    ECMAScript leaves to the implementation. *)
Record network : Type := Network {
  fetch : nat -> fetch_result;
  random : nat -> float;
  Math_pow : float -> nat -> float
}.

(** What a run does to the outside: a call of [fetch], or [sleep(ms)]. *)
Inductive net_event : Type :=
| EvFetch
| EvSleep (ms : float).

(** How many calls and how many backoff sleeps a run made. *)
Definition is_fetch (ev : net_event) : bool :=
  match ev with EvFetch => true | EvSleep _ => false end.
Definition fetches (log : list net_event) : nat :=
  length (List.filter is_fetch log).
Definition sleeps (log : list net_event) : nat :=
  length (List.filter (fun ev => negb (is_fetch ev)) log).

Section FetchWithRetry.
Variable net : network.
Variable retries : Z.
Variables (baseDelay factor : float).

(** The body of [while (true)].  Every iteration calls [fetch] once and
    increments [attempt] once, so the iteration with counter [attempt]
    makes call number [attempt].  [fuel] bounds the iterations. *)
Fixpoint fetchWithRetry_loop (fuel : nat) (attempt : nat) (log : list net_event)
  : option (outcome js_error response * list net_event) :=
  match fuel with
  | O => None
  | S fuel' =>
      let log := log ++ [EvFetch] in
      (* backoff with jitter, then the next iteration *)
      let backoff :=
        let delay := PrimFloat.mul baseDelay (Math_pow net factor attempt) in
        let jitter := Math_floor (PrimFloat.mul (random net attempt) baseDelay) in
        fetchWithRetry_loop fuel' (S attempt)
          (log ++ [EvSleep (PrimFloat.add delay jitter)]) in
      (* the catch block *)
      let catch (err : js_error) :=
        if String.eqb (err_name err) "AbortError"
        then Some (Throw (new_Error "LLM request aborted by timeout"), log)
        else if (retries <=? Z.of_nat attempt) then Some (Throw err, log)
        else backoff in
      match fetch net attempt with
      | Responded res =>
          if ok res then Some (Ret res, log)
          else
            let retryable := (status res =? 429) || (500 <=? status res) in
            if negb retryable || (retries <=? Z.of_nat attempt)
            then catch (new_Error ("LLM request failed: HTTP " +:+ String_Z (status res)))
            else backoff
      | Rejected err => catch err
      end
  end.

Definition fetchWithRetry
  : option (outcome js_error response * list net_event) :=
  fetchWithRetry_loop (S (Z.to_nat retries)) 0 [].

End FetchWithRetry.

(** *** generateItinerary *)

(** [str.trim()] on the code units below 256. *)
Definition is_space (c : ascii) : bool :=
  match nat_of_ascii c with
  | 9%nat | 10%nat | 11%nat | 12%nat | 13%nat | 32%nat | 160%nat => true
  | _ => false
  end.

Fixpoint trim_start (l : list ascii) : list ascii :=
  match l with
  | [] => []
  | c :: rest => if is_space c then trim_start rest else l
  end.

Definition trim (str : string) : string :=
  string_of_list_ascii
    (rev (trim_start (rev (trim_start (list_ascii_of_string str))))).

Section GenerateItinerary.
(** [JSON.parse] on text: the value, or a [SyntaxError]. *)
Variable JSON_parse : string -> outcome js_error json.
Variable net : network.

Definition generateItinerary (retries : Z) (baseDelay : float)
  : option (outcome js_error json * list net_event) :=
  match fetchWithRetry net retries baseDelay 2 with
  | None => None
  | Some (Throw e, log) => Some (Throw e, log)
  | Some (Ret resp, log) =>
      Some (match content resp with
            | Throw e => Throw e
            | Ret None => Throw (new_Error "Empty LLM response")
            | Ret (Some raw) =>
                if String.eqb raw "" then Throw (new_Error "Empty LLM response")
                else
                  let trimmed := trim raw in
                  match JSON_parse trimmed with
                  | Ret v => Ret v
                  | Throw _ =>
                      match extractFirstJsonArray trimmed with
                      | Throw e => Throw e
                      | Ret arrText => JSON_parse arrText
                      end
                  end
            end, log)
  end.

End GenerateItinerary.

(** *** Bracket nesting as a count *)

(** Contribution of one code unit to the nesting depth. *)
Definition delta (c : ascii) : Z :=
  if Ascii.eqb c open_bracket then 1
  else if Ascii.eqb c close_bracket then -1 else 0.

Fixpoint depth_of (l : list ascii) : Z :=
  match l with
  | [] => 0
  | c :: l' => delta c + depth_of l'
  end.

(** Nesting depth after the code unit at index [i], counting from [start]. *)
Definition bracket_depth (str : list ascii) (start i : nat) : Z :=
  depth_of (slice str start (S i)).

(** [start] is the index of the first ['[']. *)
Definition first_open (str : list ascii) (start : nat) : Prop :=
  str !! start = Some open_bracket /\
  forall j, (j < start)%nat -> str !! j <> Some open_bracket.

(** The depth first returns to zero at index [i]. *)
Definition first_return (str : list ascii) (start i : nat) : Prop :=
  (start <= i < length str)%nat /\
  bracket_depth str start i = 0 /\
  forall j, (start <= j < i)%nat -> bracket_depth str start j <> 0.

End Llm.

(** ** The validation library (Zod 3) as used by jobs.js

    Zod is a dependency of the worker and is not among its sources; only
    the schema built with it is ([jobs.js]).  [jobs.js] reads [err.errors],
    [e.path] and [e.message], the interface of Zod 3. *)

Module Zod.

Inductive path_elem : Type :=
| Key (k : string)
| Index (i : nat).

(** The two fields of an issue that the worker reads. *)
Record issue : Type := Issue { path : list path_elem; message : string }.

Inductive check : Type :=
| Int
| Min (value : Z).

#[local] Unset Elimination Schemes.
Inductive schema : Type :=
| ZString
| ZNumber (checks : list check)
| ZArray (element : schema) (minLength : option nat)
| ZObject (shape : list (string * schema)).
#[local] Set Elimination Schemes.

(** What a schema returns: a value, possibly marked dirty, or [INVALID]. *)
Inductive verdict : Type :=
| OK (dirty : bool) (value : json)
| INVALID.

(** [getParsedType]; [None] is [undefined]. *)
Definition getParsedType (input : option json) : string :=
  match input with
  | None => "undefined"
  | Some JNull => "null"
  | Some (JBool _) => "boolean"
  | Some (JNumber _) => "number"
  | Some (JString _) => "string"
  | Some (JArray _) => "array"
  | Some (JObject _) => "object"
  end.

Definition invalid_type (expected : string) (input : option json)
    (path : list path_elem) : issue :=
  Issue path
    (match input with
     | None => "Required"
     | Some _ => "Expected " +:+ expected +:+ ", received " +:+ getParsedType input
     end).

Definition run_check (n : number) (path : list path_elem) (c : check) : list issue :=
  match c with
  | Int =>
      if Number_isInteger n then []
      else [Issue path "Expected integer, received float"]
  | Min value =>
      if number_lt_Z n value
      then [Issue path ("Number must be greater than or equal to " +:+ String_Z value)]
      else []
  end.

Definition is_nil {A} (l : list A) : bool :=
  match l with [] => true | _ => false end.

(** [ParseStatus.mergeArray] *)
Fixpoint mergeArray (dirty : bool) (results : list verdict) : option (bool * list json) :=
  match results with
  | [] => Some (dirty, [])
  | INVALID :: _ => None
  | OK d v :: rest =>
      match mergeArray (dirty || d) rest with
      | Some (d', vs) => Some (d', v :: vs)
      | None => None
      end
  end.

(** [ParseStatus.mergeObjectSync] *)
Fixpoint mergeObjectSync (dirty : bool) (pairs : list (string * verdict))
  : option (bool * list (string * json)) :=
  match pairs with
  | [] => Some (dirty, [])
  | (_, INVALID) :: _ => None
  | (key, OK d v) :: rest =>
      match mergeObjectSync (dirty || d) rest with
      | Some (d', kvs) => Some (d', (key, v) :: kvs)
      | None => None
      end
  end.

(** Modelled from the spec: the library's synchronous [_parse], which is
    not among the sources, for the four schema kinds the worker builds.
    The specification asks that validation "fail with a structured error
    enumerating every violated field path and a human-readable reason" and
    "not stop at the first violation": every child is parsed and its
    issues are appended in visiting order, with the path of the field and
    the message of the library's default error map.  An object comes out
    with the declared keys only, the library's default for [z.object], on
    which the specification is silent. *)
Fixpoint _parse (s : schema) (path : list path_elem) (input : option json)
  : verdict * list issue :=
  match s with
  | ZString =>
      match input with
      | Some (JString x) => (OK false (JString x), [])
      | _ => (INVALID, [invalid_type "string" input path])
      end
  | ZNumber checks =>
      match input with
      | Some (JNumber n) =>
          let issues := flat_map (run_check n path) checks in
          (OK (negb (is_nil issues)) (JNumber n), issues)
      | _ => (INVALID, [invalid_type "number" input path])
      end
  | ZArray element minLength =>
      match input with
      | Some (JArray items) =>
          let own :=
            match minLength with
            | Some m =>
                if (length items <? m)%nat
                then [Issue path ("Array must contain at least " +:+ String_nat m
                                  +:+ " element(s)")]
                else []
            | None => []
            end in
          let results :=
            imap (fun i item => _parse element (path ++ [Index i]) (Some item)) items in
          (match mergeArray (negb (is_nil own)) (map fst results) with
           | Some (d, vs) => OK d (JArray vs)
           | None => INVALID
           end,
           own ++ concat (map snd results))
      | _ => (INVALID, [invalid_type "array" input path])
      end
  | ZObject shape =>
      match input with
      | Some (JObject props) =>
          let pairs :=
            map (fun kv : string * schema =>
                   (fst kv, _parse (snd kv) (path ++ [Key (fst kv)])
                                   (get_prop (fst kv) props))) shape in
          (match mergeObjectSync false (map (fun p => (fst p, fst (snd p))) pairs) with
           | Some (d, kvs) => OK d (JObject kvs)
           | None => INVALID
           end,
           concat (map (fun p => snd (snd p)) pairs))
      | _ => (INVALID, [invalid_type "object" input path])
      end
  end.

(** [schema.parse(data)]: the value when the status is valid, otherwise a
    [ZodError] carrying every issue collected. *)
Definition parse (s : schema) (data : json) : outcome (list issue) json :=
  match _parse s [] (Some data) with
  | (OK false v, _) => Ret v
  | (_, issues) => Throw issues
  end.

(** [array.join(sep)] on strings *)
Fixpoint join (sep : string) (l : list string) : string :=
  match l with
  | [] => ""
  | [x] => x
  | x :: rest => x +:+ sep +:+ join sep rest
  end.

Definition path_elem_to_string (e : path_elem) : string :=
  match e with
  | Key k => k
  | Index i => String_nat i
  end.

End Zod.

(** ** The worker's world: queue store, durable store, calls made

    Timestamps are instants in milliseconds since the epoch.  The ISO-8601
    text that [toISOString] produces is identified with its instant, so
    [new Date(text).getTime()] is the identity on it. *)
Definition timestamp : Type := Z.

Module Queue.

(** The job object kept in the queue store, as [JSON.parse] returns it.
    [durationDays] is a finite number or [null] ([None]).  [lockedAt] and
    [error] are absent ([None]) until set; a [lockedAt] that does not parse
    to a date reads as [NaN] and is [None] as well. *)
Record job : Type := Job {
  destination : string;
  durationDays : option Q;
  status : string;
  createdAt : timestamp;
  lockedAt : option timestamp;
  error : option string
}.

(** A JSON value that is neither [null] nor an object: reading a property
    of it gives [undefined]. *)
Inductive unstructured : Type :=
| UBool (b : bool)
| UNumber (n : number)
| UString (s : string)
| UArray (items : list json).

(** The text stored under a key, by what [JSON.parse] makes of it:
    [JSON.stringify] of a job object, which is all the worker ever writes,
    kept as the object it encodes; the text [null]; the text of a boolean,
    a number, a string or an array; or text that is not JSON, which
    [JSON.parse] rejects (the empty text included).  Objects of another
    shape than a job's are not represented. *)
Inductive text : Type :=
| Serialized (j : job)
| Null
| Unstructured (v : unstructured)
| Malformed (s : string).

End Queue.

Module Firestore.

(** A Firestore field value.  [jsonStringValue v] is the field
    [{ stringValue: JSON.stringify(v) }], kept as the value it encodes;
    [integerValue n] is [{ integerValue: String(n) }]. *)
Inductive value : Type :=
| stringValue (s : string)
| jsonStringValue (v : json)
| timestampValue (t : timestamp)
| integerValue (n : number)
| nullValue.

(** A PATCH request on a document: the update mask ([None] when the URL
    carries none) and the fields of the body. *)
Record patch : Type := Patch {
  updateMask : option (list string);
  fields : list (string * value)
}.

(** The argument object of [saveItinerary]. [itinerary = None] is
    [undefined]; [completedAt = None] and [error = None] are [null]. *)
Record save_args : Type := SaveArgs {
  status : string;
  itinerary : option json;
  updatedAt : timestamp;
  completedAt : option timestamp;
  error : option string
}.

(** The request [createItineraryDoc] sends. *)
Definition createItineraryDoc_request
    (destination : string) (durationDays : number) (createdAt : timestamp) : patch :=
  Patch None
    [("status", stringValue "processing");
     ("destination", stringValue destination);
     ("durationDays", integerValue durationDays);
     ("createdAt", timestampValue createdAt);
     ("completedAt", nullValue);
     ("itinerary", nullValue);
     ("error", nullValue)].

(** The request [saveItinerary] sends. *)
Definition saveItinerary_request (a : save_args) : patch :=
  let paths := ["status"; "updatedAt"; "completedAt"; "error"] in
  let paths := match itinerary a with Some _ => paths ++ ["itinerary"] | None => paths end in
  let fields :=
    [("status", stringValue (status a));
     ("updatedAt", timestampValue (updatedAt a));
     ("completedAt", match completedAt a with
                     | Some t => timestampValue t
                     | None => nullValue
                     end);
     ("error", match error a with
               | Some e => if String.eqb e "" then nullValue else stringValue e
               | None => nullValue
               end)] in
  let fields := match itinerary a with
                | Some v => fields ++ [("itinerary", jsonStringValue v)]
                | None => fields
                end in
  Patch (Some paths) fields.

Fixpoint get_field (name : string) (fs : list (string * value)) : option value :=
  match fs with
  | [] => None
  | (k, v) :: rest => if String.eqb k name then Some v else get_field name rest
  end.

(** The document after a successful PATCH: without a mask the body
    replaces the document, with a mask exactly the masked fields are set
    from the body (and removed when the body lacks them). *)
Definition apply_patch (req : patch) (doc : gmap string value) : gmap string value :=
  match updateMask req with
  | None => list_to_map (fields req)
  | Some paths =>
      foldl (fun d p => match get_field p (fields req) with
                        | Some v => <[p := v]> d
                        | None => delete p d
                        end) doc paths
  end.

End Firestore.

Module Runtime.

(** The calls the worker makes on its collaborators. *)
Inductive op : Type :=
| KV_list
| KV_get (key : string)
| KV_put (key : string) (value : Queue.text)
| KV_delete (key : string)
| generate (destination : string) (durationDays : option Q)
| getAccessToken
| firestore_patch (jobId : string) (req : Firestore.patch).

(** [Event o f]: the call [o] was made and awaited, and threw [f] if it
    failed.  [Issued o]: the call [o] was made by a task that its caller
    started and did not wait for; how the call ends is part of the task's
    own run. *)
Inductive event : Type :=
| Event (operation : op) (failure : option js_error)
| Issued (operation : op).

Record world : Type := World {
  kv : gmap string Queue.text;
  docs : gmap string (gmap string Firestore.value);
  trace : list event
}.

(** Everything outside the worker, indexed by the number of calls made so
    far: which calls fail and with what error, the keys the queue store
    lists, what the timed generation call yields, the clock, the UUIDs. *)
Record environment : Type := Environment {
  fault : nat -> op -> option js_error;
  listing : list string;
  generated : nat -> outcome js_error json;
  clock : nat -> timestamp;
  randomUUID : nat -> string
}.

(** Computations: state passing over the world, with exceptions. *)
Definition M (E A : Type) : Type := world -> outcome E A * world.

Definition ret {E A} (a : A) : M E A := fun w => (Ret a, w).
Definition throw {E A} (e : E) : M E A := fun w => (Throw e, w).
Definition bind {E A B} (m : M E A) (k : A -> M E B) : M E B :=
  fun w => match m w with
           | (Ret a, w') => k a w'
           | (Throw e, w') => (Throw e, w')
           end.
(** [try { m } catch (e) { h e }] *)
Definition try_catch {E E' A} (m : M E A) (h : E -> M E' A) : M E' A :=
  fun w => match m w with
           | (Ret a, w') => (Ret a, w')
           | (Throw e, w') => h e w'
           end.
Definition map_error {E E' A} (f : E -> E') (m : M E A) : M E' A :=
  try_catch m (fun e => throw (f e)).

Declare Scope worker_scope.
Delimit Scope worker_scope with worker.
Notation "'let!' x ':=' m 'in' k" := (bind m (fun x => k))
  (at level 10, x name, m at level 100, k at level 200) : worker_scope.
Notation "m ';;' k" := (bind m (fun _ => k))
  (at level 100, k at level 200, right associativity) : worker_scope.
Local Open Scope worker_scope.

Definition log (ev : event) (w : world) : world :=
  World (kv w) (docs w) (trace w ++ [ev]).

Section Calls.
Variable env : environment.

(** An awaited call that yields nothing: it is recorded, and throws when
    the environment says so. *)
Definition call (o : op) : M js_error unit :=
  fun w => match fault env (length (trace w)) o with
           | Some e => (Throw e, log (Event o (Some e)) w)
           | None => (Ret tt, log (Event o None) w)
           end.

(** [new Date()] / [Date.now()] *)
Definition Date_now {E} : M E timestamp :=
  fun w => (Ret (clock env (length (trace w))), w).

Definition JOBS_KV_list : M js_error (list string) :=
  call KV_list ;; ret (listing env).

Definition JOBS_KV_get (key : string) : M js_error (option Queue.text) :=
  call (KV_get key) ;; fun w => (Ret (kv w !! key), w).

Definition JOBS_KV_put (key : string) (value : Queue.text) : M js_error unit :=
  call (KV_put key value) ;;
  fun w => (Ret tt, World (<[key := value]> (kv w)) (docs w) (trace w)).

Definition JOBS_KV_delete (key : string) : M js_error unit :=
  call (KV_delete key) ;;
  fun w => (Ret tt, World (delete key (kv w)) (docs w) (trace w)).

(** [runWithTimeout(signal => generateItinerary(...), 30_000)]: one call on
    the generation client, whose value or error the environment gives. *)
Definition runWithTimeout_generateItinerary
    (destination : string) (durationDays : option Q) : M js_error json :=
  fun w => match generated env (length (trace w)) with
           | Ret v => (Ret v, log (Event (generate destination durationDays) None) w)
           | Throw e => (Throw e, log (Event (generate destination durationDays) (Some e)) w)
           end.

(** The PATCH of firestore.js, after the access token has been obtained. *)
Definition send_patch (jobId : string) (req : Firestore.patch) : M js_error unit :=
  call getAccessToken ;;
  call (firestore_patch jobId req) ;;
  fun w => (Ret tt,
            World (kv w)
                  (<[jobId := Firestore.apply_patch req (default ∅ (docs w !! jobId))]> (docs w))
                  (trace w)).

Definition createItineraryDoc (jobId : string) (destination : string)
    (durationDays : number) (createdAt : timestamp) : M js_error unit :=
  send_patch jobId (Firestore.createItineraryDoc_request destination durationDays createdAt).

Definition saveItinerary (jobId : string) (a : Firestore.save_args) : M js_error unit :=
  send_patch jobId (Firestore.saveItinerary_request a).

End Calls.

(** A computation that only ever adds to the trace. *)
Definition extends {E A} (m : M E A) : Prop :=
  forall w, exists evs, trace (snd (m w)) = trace w ++ evs.

End Runtime.

(** ** jobs.js *)

Module Jobs.
Import Zod Runtime.
Local Open Scope worker_scope.

(** ----- Zod schema ----- *)
Definition Activity : schema :=
  ZObject [("time", ZString); ("description", ZString); ("location", ZString)].
Definition DayItinerary : schema :=
  ZObject [("day", ZNumber [Int; Min 1]);
           ("theme", ZString);
           ("activities", ZArray Activity (Some 1%nat))].
Definition ItinerarySchema : schema := ZArray DayItinerary (Some 1%nat).

(** What the [try] block of the sweep can throw. *)
Inductive exn : Type :=
| Js (e : js_error)
| ZodError (errors : list issue).

(** The message the [catch] block builds. *)
Definition render_issue (e : issue) : string :=
  join "." (map path_elem_to_string (path e)) +:+ ": " +:+ message e.

Definition failure_message (err : exn) : string :=
  match err with
  | ZodError errors => "Validation error: " +:+ join "; " (map render_issue errors)
  | Js e => if String.eqb (err_message e) "" then "Unknown error" else err_message e
  end.

(** [persistErr?.message || persistErr] inside a template literal. *)
Definition persist_note (persistErr : js_error) : string :=
  if String.eqb (err_message persistErr) "" then err_name persistErr
  else err_message persistErr.

(** [now - new Date(job.lockedAt).getTime() > 600_000] *)
Definition lock_expired (now : timestamp) (job : Queue.job) : bool :=
  match Queue.lockedAt job with
  | Some t => 600000 <? now - t
  | None => false
  end.

Definition set_status (status : string) (job : Queue.job) : Queue.job :=
  Queue.Job (Queue.destination job) (Queue.durationDays job) status
            (Queue.createdAt job) (Queue.lockedAt job) (Queue.error job).
Definition set_lockedAt (t : timestamp) (job : Queue.job) : Queue.job :=
  Queue.Job (Queue.destination job) (Queue.durationDays job) (Queue.status job)
            (Queue.createdAt job) (Some t) (Queue.error job).
Definition set_error (e : option string) (job : Queue.job) : Queue.job :=
  Queue.Job (Queue.destination job) (Queue.durationDays job) (Queue.status job)
            (Queue.createdAt job) (Queue.lockedAt job) e.

Section ProcessPendingJobs.
Variable env : environment.

(** The [try] block: generate, validate, persist success, clean up. *)
Definition attempt (jobId : string) (job : Queue.job) : M exn unit :=
  let! rawItinerary :=
    map_error Js (runWithTimeout_generateItinerary env
                    (Queue.destination job) (Queue.durationDays job)) in
  let! itinerary :=
    match parse ItinerarySchema rawItinerary with
    | Ret v => ret v
    | Throw errors => throw (ZodError errors)
    end in
  let! nowTs := Date_now env in
  map_error Js
    (saveItinerary env jobId
       (Firestore.SaveArgs "completed" (Some itinerary) nowTs (Some nowTs) None)) ;;
  map_error Js (JOBS_KV_delete env jobId).

(** The [catch] block. *)
Definition recover (jobId : string) (job : Queue.job) (err : exn) : M js_error unit :=
  let! nowTs := Date_now env in
  let message := failure_message err in
  let! message :=
    try_catch
      (saveItinerary env jobId
         (Firestore.SaveArgs "failed" None nowTs None (Some message)) ;;
       ret message)
      (fun persistErr =>
         ret (message +:+ " | persistError: " +:+ persist_note persistErr)) in
  let job := set_error (Some message) (set_status "failed" job) in
  JOBS_KV_put env jobId (Queue.Serialized job).

(** One iteration of the [for] loop; returning is [continue]. *)
Definition process (now : timestamp) (jobId : string) : M js_error unit :=
  let! raw := JOBS_KV_get env jobId in
  match raw with
  | None => ret tt
  | Some (Queue.Malformed s) =>
      if String.eqb s "" then ret tt
      else throw (JsError "SyntaxError" "Unexpected token in JSON")
  | Some Queue.Null =>
      (* [job.status] on [null] *)
      throw (JsError "TypeError" "Cannot read properties of null (reading 'status')")
  | Some (Queue.Unstructured _) =>
      (* [job.status] is [undefined]: not in progress, and not pending *)
      ret tt
  | Some (Queue.Serialized job) =>
      (* reset stale in-progress jobs *)
      let! job :=
        if String.eqb (Queue.status job) "in-progress" && lock_expired now job
        then
          let job := set_error None (set_status "pending" job) in
          JOBS_KV_put env jobId (Queue.Serialized job) ;; ret job
        else ret job in
      if negb (String.eqb (Queue.status job) "pending") then ret tt
      else
        (* lock *)
        let! lockedAt := Date_now env in
        let job := set_lockedAt lockedAt (set_status "in-progress" job) in
        JOBS_KV_put env jobId (Queue.Serialized job) ;;
        try_catch (attempt jobId job) (recover jobId job)
  end.

Fixpoint for_each_key (now : timestamp) (keys : list string) : M js_error unit :=
  match keys with
  | [] => ret tt
  | jobId :: rest => process now jobId ;; for_each_key now rest
  end.

Definition processPendingJobs : M js_error unit :=
  let! keys := JOBS_KV_list env in
  let! now := Date_now env in
  for_each_key now keys.

End ProcessPendingJobs.
End Jobs.

(** ** index.js: the submission handler *)

Module Index.
Import Runtime.
Local Open Scope worker_scope.

(** The request body as [request.json()] sees it. *)
Inductive body : Type :=
| JsonBody (payload : json)
| InvalidBody.

(** A response: its status and its body.  The body of the 202 answer,
    [JSON.stringify({ jobId })], is kept as the job id it carries. *)
Record http_response : Type := HttpResponse { status : Z; text : string }.

(** Work handed to [ctx.waitUntil].  The argument of [ctx.waitUntil] is a
    call, so each task has run up to its first [await] when the handler
    goes on; the rest of it runs without the handler waiting. *)
Inductive background : Type :=
| CreateItineraryDoc (jobId destination : string) (durationDays : number)
                     (createdAt : timestamp)
| ProcessPendingJobs.

Section Fetch.
Variable env : environment.

(** [const { destination, durationDays } = payload]: [null] cannot be
    destructured; values other than objects have neither property. *)
Definition destructure (payload : json)
  : outcome js_error (option json * option json) :=
  match payload with
  | JNull => Throw (JsError "TypeError" "Cannot destructure property of null")
  | JObject props => Ret (get_prop "destination" props, get_prop "durationDays" props)
  | _ => Ret (None, None)
  end.

(** Starting a task: its first call is made, and not awaited. *)
Definition start (o : op) : M js_error unit :=
  fun w => (Ret tt, log (Issued o) w).

(** The [POST] branch of [fetch].  The record is
    [JSON.stringify({ destination, durationDays, status, createdAt })].
    [createItineraryDoc(...)] runs up to the first [await] inside
    [getAccessToken], [processPendingJobs(env)] up to its
    [env.JOBS_KV.list()]; then the response is built. *)
Definition post (b : body) : M js_error (http_response * list background) :=
  match b with
  | InvalidBody => ret (HttpResponse 400 "Invalid JSON", [])
  | JsonBody payload =>
      match destructure payload with
      | Throw e => throw e
      | Ret (Some (JString destination), Some (JNumber durationDays)) =>
          let! jobId := (fun w => (Ret (randomUUID env (length (trace w))), w)) in
          let! createdAt := Date_now env in
          JOBS_KV_put env jobId
            (Queue.Serialized
               (Queue.Job destination (JSON_number durationDays) "pending" createdAt
                          None None)) ;;
          start getAccessToken ;;
          start KV_list ;;
          ret (HttpResponse 202 jobId,
               [CreateItineraryDoc jobId destination durationDays createdAt;
                ProcessPendingJobs])
      | Ret _ => ret (HttpResponse 400 "Bad Request", [])
      end
  end.

End Fetch.
End Index.

(** ** The specification's words about validation *)

Module ItinerarySpec.
Import Zod.

(** [needle] occurs in [text]. *)
Definition occurs (needle text : string) : Prop :=
  exists before after, text = before +:+ needle +:+ after.

(** The decimal numeral of an array index. *)
Definition decimal (i : nat) : string := NilZero.string_of_uint (Nat.to_uint i).

(** A field path as a path-qualified message shows it: keys and indexes
    separated by dots. *)
Definition label (e : path_elem) : string :=
  match e with
  | Key k => k
  | Index i => decimal i
  end.

Fixpoint dotted (p : list path_elem) : string :=
  match p with
  | [] => ""
  | [e] => label e
  | e :: rest => label e +:+ "." +:+ dotted rest
  end.

Definition is_string (x : option json) : Prop := exists s, x = Some (JString s).
Definition is_number (x : option json) : Prop := exists n, x = Some (JNumber n).
Definition is_array (x : option json) : Prop := exists items, x = Some (JArray items).
Definition is_object (x : option json) : Prop := exists props, x = Some (JObject props).

(** The reason given for a field that is absent, or has another type than
    the expected one. *)
Definition wrong_type (expected : string) (x : option json) : string :=
  match x with
  | None => "Required"
  | Some _ => "Expected " +:+ expected +:+ ", received " +:+ getParsedType x
  end.

(** Every way in which a value can fail to be an itinerary, with the path
    of the offending field, relative to the value, and the reason.  An
    activity has string [time], [description] and [location]. *)
Inductive activity_violation : json -> list path_elem -> string -> Prop :=
| not_an_activity a :
    ~ is_object (Some a) ->
    activity_violation a [] (wrong_type "object" (Some a))
| not_a_string_field props field :
    In field ["time"; "description"; "location"] ->
    ~ is_string (get_prop field props) ->
    activity_violation (JObject props) [Key field]
      (wrong_type "string" (get_prop field props)).

(** A day-plan has an integer [day] of at least 1, a string [theme] and a
    non-empty list of activities. *)
Inductive day_violation : json -> list path_elem -> string -> Prop :=
| not_a_day_plan d :
    ~ is_object (Some d) ->
    day_violation d [] (wrong_type "object" (Some d))
| day_not_a_number props :
    ~ is_number (get_prop "day" props) ->
    day_violation (JObject props) [Key "day"] (wrong_type "number" (get_prop "day" props))
| day_not_an_integer props n :
    get_prop "day" props = Some (JNumber n) ->
    Number_isInteger n = false ->
    day_violation (JObject props) [Key "day"] "Expected integer, received float"
| day_below_one props n :
    get_prop "day" props = Some (JNumber n) ->
    number_lt_Z n 1 = true ->
    day_violation (JObject props) [Key "day"] "Number must be greater than or equal to 1"
| theme_not_a_string props :
    ~ is_string (get_prop "theme" props) ->
    day_violation (JObject props) [Key "theme"]
      (wrong_type "string" (get_prop "theme" props))
| activities_not_a_list props :
    ~ is_array (get_prop "activities" props) ->
    day_violation (JObject props) [Key "activities"]
      (wrong_type "array" (get_prop "activities" props))
| no_activities props :
    get_prop "activities" props = Some (JArray []) ->
    day_violation (JObject props) [Key "activities"]
      "Array must contain at least 1 element(s)"
| in_activity props acts j a p reason :
    get_prop "activities" props = Some (JArray acts) ->
    acts !! j = Some a ->
    activity_violation a p reason ->
    day_violation (JObject props) (Key "activities" :: Index j :: p) reason.

(** An itinerary is a non-empty list of day-plans. *)
Inductive violation : json -> list path_elem -> string -> Prop :=
| not_a_day_list v :
    ~ is_array (Some v) ->
    violation v [] (wrong_type "array" (Some v))
| empty_day_list :
    violation (JArray []) [] "Array must contain at least 1 element(s)"
| in_day days i d p reason :
    days !! i = Some d ->
    day_violation d p reason ->
    violation (JArray days) (Index i :: p) reason.

(** A value that has the declared fields and no others. *)
Definition activity_exact (a : json) : Prop :=
  exists time description location,
    a = JObject [("time", JString time);
                 ("description", JString description);
                 ("location", JString location)].

Definition day_plan_exact (d : json) : Prop :=
  exists day theme activities,
    d = JObject [("day", JNumber day);
                 ("theme", JString theme);
                 ("activities", JArray activities)] /\
    Forall activity_exact activities.

Definition declared_fields_only (v : json) : Prop :=
  exists days, v = JArray days /\ Forall day_plan_exact days.

End ItinerarySpec.

(** ** The specification's words about the sweep *)

Module SweepSpec.
Import Runtime Queue Jobs.

(** The queue store answers every list, get and put. *)
Definition queue_reliable (env : environment) : Prop :=
  forall n,
    fault env n KV_list = None /\
    (forall key, fault env n (KV_get key) = None) /\
    (forall key value, fault env n (KV_put key value) = None).

(** Every stored text is JSON, or empty. *)
Definition records_parse (w : world) : Prop :=
  forall key s, kv w !! key = Some (Malformed s) -> s = "".

(** Every stored text is a job object, as the worker writes them. *)
Definition worker_written (w : world) : Prop :=
  forall key stored, kv w !! key = Some stored -> exists job, stored = Serialized job.

(** A call that writes under a key: a queue put or delete, or a durable
    write. *)
Definition writes_to (key : string) (ev : event) : Prop :=
  match ev with
  | Event (KV_put k _) _ | Event (KV_delete k) _ | Event (firestore_patch k _) _ =>
      k = key
  | _ => False
  end.

(** A record the sweep has to process: pending, or in progress under a
    lock older than 600 seconds. *)
Definition eligible (now : timestamp) (stored : option text) : bool :=
  match stored with
  | Some (Serialized job) =>
      String.eqb (status job) "pending"
      || (String.eqb (status job) "in-progress" && lock_expired now job)
  | _ => false
  end.

Definition marked_failed (stored : option text) : Prop :=
  exists job message,
    stored = Some (Serialized job) /\
    status job = "failed" /\ error job = Some message /\ message <> "".

(** What a pass leaves under a key: an eligible record is gone (success)
    or marked failed with a message; any other is as it was. *)
Definition settled (now : timestamp) (before after : option text) : Prop :=
  if eligible now before then after = None \/ marked_failed after
  else after = before.

End SweepSpec.

(** ** Concrete runs *)

Module Scenario.
Import Runtime.

(** Five days, as a request carries them and as a queue record holds
    them. *)
Definition five_days : number := Finite (Qmake 5 1).
Definition five : option Q := JSON_number five_days.

Definition pending_job : Queue.job :=
  Queue.Job "Tokyo, Japan" five "pending" 1754733600000 None None.

(** A generated itinerary of one day; the generator added a property. *)
Definition generated_itinerary : json :=
  JArray [JObject [("day", JNumber (Finite (Qmake 1 1)));
                   ("theme", JString "Arrival");
                   ("notes", JString "bring cash");
                   ("activities",
                    JArray [JObject [("time", JString "09:00");
                                     ("description", JString "Senso-ji temple");
                                     ("location", JString "Asakusa")]])]].

(** The same itinerary with the declared fields only. *)
Definition validated_itinerary : json :=
  JArray [JObject [("day", JNumber (Finite (Qmake 1 1)));
                   ("theme", JString "Arrival");
                   ("activities",
                    JArray [JObject [("time", JString "09:00");
                                     ("description", JString "Senso-ji temple");
                                     ("location", JString "Asakusa")]])]].

(** A job locked 700 seconds before [stale_now], with an old error. *)
Definition stale_job : Queue.job :=
  Queue.Job "Tokyo, Japan" five "in-progress" 1754733600000
            (Some 1754733000000) (Some "LLM request aborted by timeout").
Definition stale_now : timestamp := 1754733700000.

(** Every call succeeds and the generator answers. *)
Definition all_up : environment :=
  Environment (fun _ _ => None) ["job-1"; "job-2"]
              (fun _ => Ret generated_itinerary)
              (fun n => 1754733600000 + Z.of_nat n)
              (fun _ => "job-1").

(** The generator fails; everything else works. *)
Definition generator_down : environment :=
  Environment (fun _ _ => None) ["job-1"; "job-2"]
              (fun _ => Throw (new_Error "LLM request failed: HTTP 503"))
              (fun n => 1754733600000 + Z.of_nat n)
              (fun _ => "job-1").

(** The queue store refuses every write. *)
Definition queue_read_only : environment :=
  Environment (fun _ o => match o with
                          | KV_put _ _ => Some (new_Error "KV PUT failed: 500")
                          | _ => None
                          end)
              ["job-1"; "job-2"]
              (fun _ => Ret generated_itinerary)
              (fun n => 1754733600000 + Z.of_nat n)
              (fun _ => "job-1").

Definition empty_world : world := World ∅ ∅ [].

Definition one_pending : world :=
  World {["job-1" := Queue.Serialized pending_job]} ∅ [].

Definition one_stale : world :=
  World {["job-1" := Queue.Serialized stale_job]} ∅ [].

Definition two_pending : world :=
  World (<["job-2" := Queue.Serialized pending_job]>
           {["job-1" := Queue.Serialized pending_job]}) ∅ [].

(** The first listed job is pending, the second has a stale lock. *)
Definition pending_then_stale : world :=
  World (<["job-2" := Queue.Serialized stale_job]>
           {["job-1" := Queue.Serialized pending_job]}) ∅ [].

(** Someone has stored the text [null] under the first listed key. *)
Definition null_then_pending : world :=
  World (<["job-2" := Queue.Serialized pending_job]> {["job-1" := Queue.Null]}) ∅ [].

(** The runs the counterexamples look at. *)
Definition generation_failure_run : outcome js_error unit * world :=
  Jobs.process generator_down 0 "job-1" one_pending.

Definition refused_lock_run : outcome js_error unit * world :=
  Jobs.processPendingJobs queue_read_only two_pending.

Definition refused_lock_before_stale_run : outcome js_error unit * world :=
  Jobs.processPendingJobs queue_read_only pending_then_stale.

Definition stored_null_run : outcome js_error unit * world :=
  Jobs.processPendingJobs all_up null_then_pending.


(** A request whose [durationDays] is written [1e400], which
    [request.json()] reads as [Infinity]. *)
Definition overflowing_submission
  : outcome js_error (Index.http_response * list Index.background) * world :=
  Index.post all_up
    (Index.JsonBody
       (JObject [("destination", JString "Tokyo, Japan");
                 ("durationDays", JNumber (Infinity false))]))
    empty_world.

End Scenario.

(** ** The retry loop, round by round *)

Module Retry.
Import Llm.

(** An outcome of [fetch] after which the loop goes to its backoff while
    attempts remain: a response that is not ok, or a rejection other than
    an abort. *)
Definition retried (r : fetch_result) : bool :=
  match r with
  | Responded res => negb (ok res)
  | Rejected err => negb (String.eqb (err_name err) "AbortError")
  end.

(** The error the loop ends with when such an outcome comes with no
    attempt left. *)
Definition final_error (r : fetch_result) : js_error :=
  match r with
  | Responded res => new_Error ("LLM request failed: HTTP " +:+ String_Z (status res))
  | Rejected err => err
  end.

Section Rounds.
Variable net : network.
Variables (baseDelay factor : float).

(** The sleep after the failed call number [attempt], in doubles as the
    loop computes it. *)
Definition backoff_ms (attempt : nat) : float :=
  PrimFloat.add
    (PrimFloat.mul baseDelay (Math_pow net factor attempt))
    (Math_floor (PrimFloat.mul (random net attempt) baseDelay)).

(** [k] rounds from call number [first] on: a call, then its sleep. *)
Definition rounds (first k : nat) : list net_event :=
  flat_map (fun j => [EvFetch; EvSleep (backoff_ms j)]) (seq first k).

End Rounds.
End Retry.

(** ** Fields of the durable documents *)

Module Documents.
Import Runtime.

(** The fields [saveItinerary] can write. *)
Definition saved_fields : list string :=
  ["status"; "updatedAt"; "completedAt"; "error"; "itinerary"].

(** A field of the document of a job, [None] when the document or the
    field is not there. *)
Definition field (w : world) (jobId name : string) : option Firestore.value :=
  default ∅ (docs w !! jobId) !! name.

(** The fields of a document that has just been created. *)
Definition initial_fields : list string :=
  ["status"; "destination"; "durationDays"; "createdAt"; "completedAt";
   "itinerary"; "error"].

End Documents.

(** ** The fields of a request *)

(** The two fields of a request body when they have the types the
    handler accepts. *)
Definition payload_fields (payload : json) : option (string * number) :=
  match payload with
  | JObject props =>
      match get_prop "destination" props, get_prop "durationDays" props with
      | Some (JString destination), Some (JNumber durationDays) =>
          Some (destination, durationDays)
      | _, _ => None
      end
  | _ => None
  end.

(** ** Concrete endpoints and stores for the further properties *)

Module Cases.
Import Llm Runtime.

Definition answer (status : Z) : fetch_result :=
  Responded (Response status (Ret (Some "[]"))).

(** [Math.pow] by repeated multiplication, which is exact on the small
    powers of two that the examples need. *)
Definition pow (x : float) (n : nat) : float :=
  Nat.iter n (PrimFloat.mul x) 1%float.

(** Two 503 answers, then 200; [Math.random()] gives 0.5. *)
Definition recovering : network :=
  Network (fun n => match n with
                    | 0%nat | 1%nat => answer 503
                    | _ => answer 200
                    end)
          (fun _ => 0.5%float) pow.

(** One 503 answer, then the caller's signal fires. *)
Definition timed_out : network :=
  Network (fun n => match n with
                    | 0%nat => answer 503
                    | _ => Rejected (JsError "AbortError" "The operation was aborted")
                    end)
          (fun _ => 0.5%float) pow.

(** 404 to every call. *)
Definition not_found : network :=
  Network (fun _ => answer 404) (fun _ => 0.5%float) pow.

(** A 503 answer, then 200, with [Math.random()] giving the double next
    to 0.35: in doubles its product with 100 is 35, not 34.99... *)
Definition rounding : network :=
  Network (fun n => match n with
                    | 0%nat => answer 503
                    | _ => answer 200
                    end)
          (fun _ => 0x1.6666666666666p-2%float) pow.

(** A job that failed earlier. *)
Definition failed_job : Queue.job :=
  Queue.Job "Tokyo, Japan" Scenario.five "failed" 1754733600000
            (Some 1754733600001) (Some "LLM request failed: HTTP 503").

Definition one_failed : world :=
  World {["job-1" := Queue.Serialized failed_job]} ∅ [].

Definition tokyo_request : json :=
  JObject [("destination", JString "Tokyo, Japan");
           ("durationDays", JNumber Scenario.five_days)].

End Cases.

(** ** Replies of the model, for the properties of generateItinerary *)

Module Replies.
Import Llm.

(** [JSON.parse] on the three texts used below: the empty array is
    parsed, the other two are syntax errors. *)
Definition parse_array_only (text : string) : outcome js_error json :=
  if String.eqb text "[]" then Ret (JArray [])
  else Throw (JsError "SyntaxError" "Unexpected token").

(** An endpoint that answers 200 with the given content. *)
Definition says (text : string) : network :=
  Network (fun _ => Responded (Response 200 (Ret (Some text))))
          (fun _ => 0.5%float) Cases.pow.

End Replies.

(** * Properties *)

(** ** extractFirstJsonArray *)

Section ExtractFirstJsonArray.
Import Llm.

Lemma indexOf_Some c str i :
  indexOf c str = Some i ->
  str !! i = Some c /\ forall j, (j < i)%nat -> str !! j <> Some c.
Proof.
  revert i. induction str as [|x rest IH]; intros i; simpl; [discriminate|].
  destruct (Ascii.eqb x c) eqn:Hx.
  - intros [= <-]. apply Ascii.eqb_eq in Hx. subst x. split; [reflexivity|lia].
  - destruct (indexOf c rest) as [k|]; [|discriminate].
    intros [= <-]. destruct (IH k eq_refl) as [Hk Hlt]. split; [exact Hk|].
    intros [|j] Hj; simpl.
    + intros [= ->]. rewrite Ascii.eqb_refl in Hx. discriminate.
    + apply Hlt. lia.
Qed.

Lemma indexOf_None c str :
  indexOf c str = None -> forall j, str !! j <> Some c.
Proof.
  induction str as [|x rest IH]; simpl; intros H j.
  - rewrite lookup_nil. discriminate.
  - destruct (Ascii.eqb x c) eqn:Hx; [discriminate|].
    destruct (indexOf c rest); [discriminate|].
    destruct j as [|j]; simpl.
    + intros [= ->]. rewrite Ascii.eqb_refl in Hx. discriminate.
    + apply IH. reflexivity.
Qed.

Lemma first_open_indexOf str start :
  first_open str start -> indexOf open_bracket str = Some start.
Proof.
  intros [Hat Hbefore].
  destruct (indexOf open_bracket str) as [k|] eqn:Hk.
  - destruct (indexOf_Some _ _ _ Hk) as [Hk1 Hk2].
    destruct (Nat.lt_trichotomy k start) as [Hlt|[->|Hgt]]; [|reflexivity|].
    + exfalso. exact (Hbefore k Hlt Hk1).
    + exfalso. exact (Hk2 start Hgt Hat).
  - exfalso. exact (indexOf_None _ _ Hk start Hat).
Qed.

(** With a positive running depth the loop returns exactly where the depth
    first reaches zero, and runs off the end when it never does. *)
Lemma scan_positive rest : forall i d, 0 < d ->
  match scan rest i d with
  | Some k =>
      exists n, k = (i + n)%nat /\ (n < length rest)%nat /\
        d + depth_of (take (S n) rest) = 0 /\
        forall m, (m < n)%nat -> 0 < d + depth_of (take (S m) rest)
  | None =>
      forall m, (m < length rest)%nat -> 0 < d + depth_of (take (S m) rest)
  end.
Proof.
  induction rest as [|c rest IH]; intros i d Hd; simpl.
  - intros m Hm. lia.
  - assert (Hstep : forall d', 0 < d' -> d' = d + delta c ->
      match scan rest (S i) d' with
      | Some k =>
          exists n, k = (i + n)%nat /\ (n < S (length rest))%nat /\
            d + (delta c + depth_of (take n rest)) = 0 /\
            forall m, (m < n)%nat -> 0 < d + (delta c + depth_of (take m rest))
      | None =>
          forall m, (m < S (length rest))%nat ->
            0 < d + (delta c + depth_of (take m rest))
      end).
    { intros d' Hd' Heq. specialize (IH (S i) d' Hd').
      destruct (scan rest (S i) d') as [k|].
      - destruct IH as (n & -> & Hn & Hz & Hm). exists (S n).
        repeat split; [lia|lia|simpl in Hz; simpl; lia|].
        intros [|m] Hlt; [simpl; lia|]. specialize (Hm m ltac:(lia)).
        simpl in Hm. simpl. lia.
      - intros [|m] Hlt; [simpl; lia|]. specialize (IH m ltac:(lia)).
        simpl in IH. simpl. lia. }
    destruct (Ascii.eqb c open_bracket) eqn:Ho.
    + apply (Hstep (d + 1)); [lia|]. unfold delta. rewrite Ho. reflexivity.
    + destruct (Ascii.eqb c close_bracket) eqn:Hc.
      * destruct (Z.eqb_spec (d - 1) 0) as [Hz|Hz].
        -- exists 0%nat. repeat split; [lia|simpl; lia| |intros m Hm; lia].
           simpl. unfold delta. rewrite Ho, Hc. lia.
        -- apply (Hstep (d - 1)); [lia|]. unfold delta. rewrite Ho, Hc. lia.
      * apply (Hstep d); [lia|]. unfold delta. rewrite Ho, Hc. lia.
Qed.

Lemma bracket_depth_from_open str start rest i :
  drop start str = open_bracket :: rest -> (start <= i)%nat ->
  bracket_depth str start i = 1 + depth_of (take (i - start) rest).
Proof.
  intros Hdrop Hi. unfold bracket_depth, slice. rewrite Hdrop.
  replace (S i - start)%nat with (S (i - start)) by lia. reflexivity.
Qed.

Lemma drop_at_open str start :
  str !! start = Some open_bracket ->
  exists rest, drop start str = open_bracket :: rest /\
               length str = (start + S (length rest))%nat.
Proof.
  intros H. exists (drop (S start) str). split.
  - apply drop_S. exact H.
  - rewrite length_drop. apply lookup_lt_Some in H. lia.
Qed.

(** C7: [extractFirstJsonArray] returns the span from the first ['['] through
    the [']'] at which the bracket depth first returns to zero; it throws
    when the string has no ['['] and when the depth never returns to zero. *)
Theorem extractFirstJsonArray_first_balanced_span (str : string) :
  let units := list_ascii_of_string str in
  (forall start i,
      first_open units start -> first_return units start i ->
      extractFirstJsonArray str
      = Ret (string_of_list_ascii (slice units start (i + 1)))) /\
  ((forall j, units !! j <> Some open_bracket) ->
      extractFirstJsonArray str
      = Throw (new_Error "No JSON array start found")) /\
  (forall start,
      first_open units start ->
      (forall i, (start <= i < length units)%nat ->
                 bracket_depth units start i <> 0) ->
      extractFirstJsonArray str
      = Throw (new_Error "No matching ] found for JSON array")).
Proof.
  intros units. unfold extractFirstJsonArray, extractFirstJsonArray_units.
  fold units. split; [|split].
  - intros start i Hopen (Hrange & Hzero & Hfirst).
    rewrite (first_open_indexOf _ _ Hopen).
    destruct Hopen as [Hat _].
    destruct (drop_at_open _ _ Hat) as (rest & Hdrop & Hlen).
    rewrite Hdrop. cbn [scan]. rewrite Ascii.eqb_refl.
    pose proof (scan_positive rest (S start) 1 ltac:(lia)) as Hscan.
    rewrite (bracket_depth_from_open _ _ _ _ Hdrop) in Hzero by lia.
    change (0 + 1) with 1; destruct (scan rest (S start) 1) as [k|] eqn:Hk.
    + destruct Hscan as (n & -> & Hn & Hz & Hpos).
      assert (i = S start + n)%nat as ->; [|reflexivity].
      destruct (Nat.lt_trichotomy (i - start) (S n)) as [Hlt|[Heq|Hgt]]; [|lia|].
      * destruct (i - start)%nat as [|m] eqn:Hm; [simpl in Hzero; lia|].
        specialize (Hpos m ltac:(lia)). lia.
      * exfalso. apply (Hfirst (S start + n)%nat); [lia|].
        rewrite (bracket_depth_from_open _ _ _ _ Hdrop) by lia.
        replace (S start + n - start)%nat with (S n) by lia. exact Hz.
    + exfalso. destruct (i - start)%nat as [|m] eqn:Hm; [simpl in Hzero; lia|].
      specialize (Hscan m ltac:(lia)). lia.
  - intros Hnone.
    destruct (indexOf open_bracket units) as [k|] eqn:Hk; [|reflexivity].
    exfalso. exact (Hnone k (proj1 (indexOf_Some _ _ _ Hk))).
  - intros start Hopen Hnever.
    rewrite (first_open_indexOf _ _ Hopen).
    destruct Hopen as [Hat _].
    destruct (drop_at_open _ _ Hat) as (rest & Hdrop & Hlen).
    rewrite Hdrop. cbn [scan]. rewrite Ascii.eqb_refl.
    pose proof (scan_positive rest (S start) 1 ltac:(lia)) as Hscan.
    change (0 + 1) with 1; destruct (scan rest (S start) 1) as [k|] eqn:Hk;
      [|reflexivity].
    exfalso. destruct Hscan as (n & -> & Hn & Hz & Hpos).
    apply (Hnever (S start + n)%nat); [lia|].
    rewrite (bracket_depth_from_open _ _ _ _ Hdrop) by lia.
    replace (S start + n - start)%nat with (S n) by lia. exact Hz.
Qed.

Lemma extractFirstJsonArray_first_balanced_span_witness :
  first_open (list_ascii_of_string "a[[]]b") 1 /\
  first_return (list_ascii_of_string "a[[]]b") 1 4 /\
  extractFirstJsonArray "a[[]]b" = Ret "[[]]" /\
  extractFirstJsonArray "plain" = Throw (new_Error "No JSON array start found") /\
  extractFirstJsonArray "a[[]"
  = Throw (new_Error "No matching ] found for JSON array").
Proof.
  assert (Hopen : first_open (list_ascii_of_string "a[[]]b") 1).
  { split; [reflexivity|]. intros [|j] Hj; [discriminate|lia]. }
  assert (Hret : first_return (list_ascii_of_string "a[[]]b") 1 4).
  { split; [simpl; lia|]. split; [reflexivity|].
    intros j Hj.
    destruct j as [|[|[|[|j]]]]; try lia; vm_compute; discriminate. }
  split; [exact Hopen|]. split; [exact Hret|]. split; [|split].
  - exact (proj1 (extractFirstJsonArray_first_balanced_span "a[[]]b") 1%nat 4%nat Hopen Hret).
  - apply (proj1 (proj2 (extractFirstJsonArray_first_balanced_span "plain"))).
    intros j. destruct j as [|[|[|[|[|j]]]]]; discriminate.
  - apply (proj2 (proj2 (extractFirstJsonArray_first_balanced_span "a[[]")) 1%nat).
    + split; [reflexivity|]. intros [|j] Hj; [discriminate|lia].
    + intros i Hi. simpl in Hi.
      destruct i as [|[|[|[|i]]]]; try lia; vm_compute; discriminate.
Defined.

End ExtractFirstJsonArray.

(** ** fetchWithRetry *)

Section FetchWithRetryFacts.
Import Llm.

(** The loop always ends within [retries + 1] iterations. *)
Lemma fetchWithRetry_loop_total net retries baseDelay factor fuel :
  forall attempt log,
    (0 < fuel)%nat -> (Z.to_nat retries < attempt + fuel)%nat ->
    is_Some (fetchWithRetry_loop net retries baseDelay factor fuel attempt log).
Proof.
  induction fuel as [|fuel IH]; intros attempt log Hpos Hfuel; [lia|].
  assert (Hback : forall l, (retries <=? Z.of_nat attempt) = false ->
            is_Some (fetchWithRetry_loop net retries baseDelay factor fuel (S attempt) l)).
  { intros l Hlt. apply Z.leb_gt in Hlt. apply IH; lia. }
  assert (Hcatch : forall err l,
            is_Some (if String.eqb (err_name err) "AbortError"
                     then Some (Throw (new_Error "LLM request aborted by timeout"), log ++ [EvFetch])
                     else if retries <=? Z.of_nat attempt
                          then Some (Throw err, log ++ [EvFetch])
                          else fetchWithRetry_loop net retries baseDelay factor fuel (S attempt) l)).
  { intros err l. destruct (String.eqb _ _); [eexists; reflexivity|].
    destruct (retries <=? Z.of_nat attempt) eqn:Hle; [eexists; reflexivity|].
    apply Hback. reflexivity. }
  cbn [fetchWithRetry_loop].
  destruct (fetch net attempt) as [res|err]; [|apply Hcatch].
  destruct (ok res); [eexists; reflexivity|].
  destruct (negb _ || (retries <=? Z.of_nat attempt)) eqn:Hgive; [apply Hcatch|].
  apply Hback. apply orb_false_iff in Hgive. tauto.
Qed.

Lemma fetchWithRetry_total net retries baseDelay factor :
  is_Some (fetchWithRetry net retries baseDelay factor).
Proof. apply fetchWithRetry_loop_total; lia. Qed.

(** C1: what the code does on a persistent 404 with the sweep's settings
    ([retries = 3], [baseDelay = 500]).  The error thrown for the
    non-retryable status is caught by the loop's own [catch] block, which
    only gives up once [attempt >= retries]: the endpoint is called four
    times, with three backoff sleeps, before the failure is reported. *)
Theorem fetchWithRetry_persistent_404_is_retried :
  forall (JSON_parse : string -> outcome js_error json)
         (rnd : nat -> float) (pow : float -> nat -> float),
    let net := Network (fun _ => Responded (Response 404 (Ret None))) rnd pow in
    exists log,
      fetchWithRetry net 3 500 2
        = Some (Throw (new_Error "LLM request failed: HTTP 404"), log) /\
      generateItinerary JSON_parse net 3 500
        = Some (Throw (new_Error "LLM request failed: HTTP 404"), log) /\
      fetches log = 4%nat /\ sleeps log = 3%nat.
Proof.
  intros JSON_parse rnd pow net. eexists. split; [reflexivity|].
  split; [reflexivity|]. split; reflexivity.
Qed.

End FetchWithRetryFacts.

(** ** Validation *)

Section Validation.
Import Zod Jobs ItinerarySpec.

Lemma parse_ZString_valid path input d v issues :
  _parse ZString path input = (OK d v, issues) ->
  d = false /\ issues = [] /\ exists s, input = Some (JString s) /\ v = JString s.
Proof.
  destruct input as [[]|]; cbn; intros [= <- <- <-]; eauto.
Qed.

Lemma parse_ZNumber_valid checks path input d v issues :
  _parse (ZNumber checks) path input = (OK d v, issues) ->
  exists n, input = Some (JNumber n) /\ v = JNumber n /\
            issues = flat_map (run_check n path) checks /\
            d = negb (is_nil issues).
Proof.
  destruct input as [[]|]; cbn; intros [= <- <- <-]; eauto.
Qed.

Lemma mergeArray_valid results : forall dirty vs,
  mergeArray dirty results = Some (false, vs) ->
  dirty = false /\ Forall2 (fun r v => r = OK false v) results vs.
Proof.
  induction results as [|[d v|] results IH]; intros dirty vs; cbn.
  - intros [= -> <-]. split; [reflexivity|constructor].
  - destruct (mergeArray (dirty || d) results) as [[d' vs']|] eqn:Hm; [|discriminate].
    intros [= -> <-]. destruct (IH _ _ Hm) as [Hd Hall].
    apply orb_false_iff in Hd as [-> ->]. split; [reflexivity|].
    constructor; [reflexivity|exact Hall].
  - discriminate.
Qed.

Lemma mergeObjectSync_valid pairs : forall dirty kvs,
  mergeObjectSync dirty pairs = Some (false, kvs) ->
  dirty = false /\ Forall2 (fun p kv => p = (fst kv, OK false (snd kv))) pairs kvs.
Proof.
  induction pairs as [|[key [d v|]] pairs IH]; intros dirty kvs; cbn.
  - intros [= -> <-]. split; [reflexivity|constructor].
  - destruct (mergeObjectSync (dirty || d) pairs) as [[d' kvs']|] eqn:Hm; [|discriminate].
    intros [= -> <-]. destruct (IH _ _ Hm) as [Hd Hall].
    apply orb_false_iff in Hd as [-> ->]. split; [reflexivity|].
    constructor; [reflexivity|exact Hall].
  - discriminate.
Qed.

(** The issues of an array are its own followed by those of its items. *)
Lemma parse_ZArray_unfold element m path items :
  _parse (ZArray element (Some m)) path (Some (JArray items))
  = let results :=
      imap (fun i item => _parse element (path ++ [Index i]) (Some item)) items in
    let own :=
      if (length items <? m)%nat
      then [Issue path ("Array must contain at least " +:+ String_nat m +:+ " element(s)")]
      else [] in
    (match mergeArray (negb (is_nil own)) (map fst results) with
     | Some (d, vs) => OK d (JArray vs)
     | None => INVALID
     end, own ++ concat (map snd results)).
Proof. reflexivity. Qed.

Lemma parse_ZObject_unfold shape path props :
  _parse (ZObject shape) path (Some (JObject props))
  = let pairs :=
      map (fun kv : string * schema =>
             (fst kv, _parse (snd kv) (path ++ [Key (fst kv)])
                             (get_prop (fst kv) props))) shape in
    (match mergeObjectSync false (map (fun p => (fst p, fst (snd p))) pairs) with
     | Some (d, kvs) => OK d (JObject kvs)
     | None => INVALID
     end, concat (map (fun p => snd (snd p)) pairs)).
Proof. reflexivity. Qed.

(** Case analysis on the result of a child schema, keeping its equation. *)
Ltac child_result H :=
  match goal with
  | |- context [_parse ?s ?p ?i] =>
      lazymatch s with
      | ZObject _ => fail
      | _ => destruct (_parse s p i) as [[? ?|] ?] eqn:H
      end
  end.

Lemma Activity_valid path input d v issues :
  _parse Activity path input = (OK d v, issues) ->
  d = false /\ issues = [] /\ activity_exact v.
Proof.
  unfold Activity.
  destruct input as [[| | | | |props]|]; try (cbn; discriminate).
  rewrite parse_ZObject_unfold. cbn [map fst snd concat app].
  child_result H1; [|cbn; discriminate].
  child_result H2; [|cbn; discriminate].
  child_result H3; [|cbn; discriminate].
  apply parse_ZString_valid in H1 as (-> & -> & s1 & _ & ->).
  apply parse_ZString_valid in H2 as (-> & -> & s2 & _ & ->).
  apply parse_ZString_valid in H3 as (-> & -> & s3 & _ & ->).
  cbn. intros [= <- <- <-]. repeat split. exists s1, s2, s3. reflexivity.
Qed.

(** Items that all parse to a valid value leave no issue behind. *)
Lemma items_valid (element : schema) (good : json -> Prop) path :
  (forall p input v issues,
      _parse element p input = (OK false v, issues) ->
      issues = [] /\ good v) ->
  forall items vs (f : nat -> nat),
    Forall2 (fun r v => r = OK false v)
      (map fst (imap (fun i item => _parse element (path ++ [Index (f i)]) (Some item)) items))
      vs ->
    concat (map snd (imap (fun i item => _parse element (path ++ [Index (f i)]) (Some item)) items)) = []
    /\ Forall good vs.
Proof.
  intros Hel. induction items as [|item items IH]; intros vs f; cbn.
  - intros Hall. inversion Hall. split; constructor.
  - intros Hall. inversion Hall as [|r v rs vs' Hr Hrest]; subst. clear Hall.
    destruct (_parse element (path ++ [Index (f 0%nat)]) (Some item)) as [verdict iss] eqn:Hp.
    cbn in Hr. subst verdict.
    destruct (Hel _ _ _ _ Hp) as (-> & Hgood).
    destruct (IH vs' (f ∘ S) Hrest) as [Hnil Hall].
    cbn. split; [exact Hnil|constructor; assumption].
Qed.

Lemma parse_ZArray_valid element (good : json -> Prop) m path input d v issues :
  (forall p input v issues,
      _parse element p input = (OK false v, issues) ->
      issues = [] /\ good v) ->
  _parse (ZArray element (Some m)) path input = (OK d v, issues) ->
  (d = false -> issues = []) /\
  exists items vs, input = Some (JArray items) /\ v = JArray vs /\
                   (d = false -> Forall good vs).
Proof.
  intros Hel.
  destruct input as [[| | | |items|]|]; try (cbn; discriminate).
  rewrite parse_ZArray_unfold. cbv zeta.
  destruct (mergeArray _ _) as [[d' vs]|] eqn:Hm; [|discriminate].
  intros [= <- <- <-].
  assert (Hvalid : d' = false ->
    (if (length items <? m)%nat
     then [Issue path ("Array must contain at least " +:+ String_nat m +:+ " element(s)")]
     else []) = [] /\
    concat (map snd (imap (fun i item => _parse element (path ++ [Index i]) (Some item)) items)) = []
    /\ Forall good vs).
  { intros ->. apply mergeArray_valid in Hm as [Hown Hall].
    destruct (length items <? m)%nat; [discriminate|].
    split; [reflexivity|].
    exact (items_valid element good path Hel items vs (fun i => i) Hall). }
  split.
  - intros Hd. destruct (Hvalid Hd) as (-> & -> & _). reflexivity.
  - exists items, vs. repeat split. intros Hd. apply (Hvalid Hd).
Qed.

Lemma DayItinerary_valid path input d v issues :
  _parse DayItinerary path input = (OK d v, issues) ->
  d = false -> issues = [] /\ day_plan_exact v.
Proof.
  unfold DayItinerary.
  destruct input as [[| | | | |props]|]; try (cbn; discriminate).
  rewrite parse_ZObject_unfold. cbn [map fst snd concat app].
  child_result H1; [|cbn; discriminate].
  child_result H2; [|cbn; discriminate].
  child_result H3; [|cbn; discriminate].
  apply parse_ZNumber_valid in H1 as (n & _ & -> & -> & ->).
  apply parse_ZString_valid in H2 as (-> & -> & s2 & _ & ->).
  apply (parse_ZArray_valid Activity activity_exact) in H3
    as (Hiss & items & vs & _ & -> & Hgood);
    [|intros p i v' iss Hp; exact (proj2 (Activity_valid _ _ _ _ _ Hp))].
  cbn [mergeObjectSync fst snd orb]. intros [= <- <- <-] Hd.
  apply orb_false_iff in Hd as [Hd1 Hd3].
  apply orb_false_iff in Hd1 as [Hd1 _].
  apply negb_false_iff in Hd1.
  cbn in Hd1 |- *.
  destruct (Number_isInteger n); [|discriminate].
  destruct (number_lt_Z n 1); [discriminate|].
  rewrite (Hiss Hd3). split; [reflexivity|].
  exists n, s2, vs. split; [reflexivity|exact (Hgood Hd3)].
Qed.

(** A value that validation accepts has come out with the declared fields
    only, and validation raised no issue. *)
Lemma ItinerarySchema_valid input v issues :
  _parse ItinerarySchema [] input = (OK false v, issues) ->
  issues = [] /\ declared_fields_only v.
Proof.
  intros Hp.
  apply (parse_ZArray_valid DayItinerary day_plan_exact) in Hp
    as (Hiss & items & vs & _ & -> & Hgood).
  - split; [exact (Hiss eq_refl)|]. exists vs. split; [reflexivity|exact (Hgood eq_refl)].
  - intros p i v' iss Hd. exact (DayItinerary_valid _ _ _ _ _ Hd eq_refl).
Qed.

(** *** Every violation raises its issue, and nothing else does *)

Lemma DayItinerary_issues path props :
  snd (_parse DayItinerary path (Some (JObject props)))
  = snd (_parse (ZNumber [Int; Min 1]) (path ++ [Key "day"]) (get_prop "day" props))
    ++ snd (_parse ZString (path ++ [Key "theme"]) (get_prop "theme" props))
    ++ snd (_parse (ZArray Activity (Some 1%nat)) (path ++ [Key "activities"])
                   (get_prop "activities" props))
    ++ [].
Proof. reflexivity. Qed.

Lemma Activity_issues path props :
  snd (_parse Activity path (Some (JObject props)))
  = snd (_parse ZString (path ++ [Key "time"]) (get_prop "time" props))
    ++ snd (_parse ZString (path ++ [Key "description"]) (get_prop "description" props))
    ++ snd (_parse ZString (path ++ [Key "location"]) (get_prop "location" props))
    ++ [].
Proof. reflexivity. Qed.

Lemma invalid_type_wrong_type expected x path :
  invalid_type expected x path = Issue path (wrong_type expected x).
Proof. destruct x; reflexivity. Qed.

Lemma ZString_issue path x p r :
  In (Issue p r) (snd (_parse ZString path x)) <->
  p = path /\ ~ is_string x /\ r = wrong_type "string" x.
Proof.
  assert (Hbad : ~ is_string x ->
            (In (Issue p r) [invalid_type "string" x path] <->
             p = path /\ ~ is_string x /\ r = wrong_type "string" x)).
  { intros Hx. rewrite invalid_type_wrong_type. cbn [In]. split.
    - intros [[= <- <-]|[]]. auto.
    - intros (-> & _ & ->). left. reflexivity. }
  destruct x as [[| | |s| |]|]; cbn [_parse snd];
    try (apply Hbad; intros [s' [=]]).
  split; [intros []|]. intros (_ & Hx & _). apply Hx. exists s. reflexivity.
Qed.

Lemma in_items_issue (f : nat -> json -> verdict * list issue) items e :
  In e (concat (map snd (imap f items))) <->
  exists j item, items !! j = Some item /\ In e (snd (f j item)).
Proof.
  revert f. induction items as [|x items IH]; intros f; cbn [imap map concat].
  - split; [intros []|]. intros (j & item & Hj & _). rewrite lookup_nil in Hj.
    discriminate.
  - rewrite in_app_iff, IH. split.
    + intros [Hin|(j & item & Hj & Hin)].
      * exists 0%nat, x. split; [reflexivity|exact Hin].
      * exists (S j), item. split; [exact Hj|exact Hin].
    + intros ([|j] & item & Hj & Hin).
      * injection Hj as <-. left. exact Hin.
      * right. exists j, item. split; [exact Hj|exact Hin].
Qed.

Lemma ZArray_issue element path x p r :
  In (Issue p r) (snd (_parse (ZArray element (Some 1%nat)) path x)) <->
  (p = path /\ ~ is_array x /\ r = wrong_type "array" x) \/
  (p = path /\ x = Some (JArray []) /\ r = "Array must contain at least 1 element(s)") \/
  (exists items j item,
      x = Some (JArray items) /\ items !! j = Some item /\
      In (Issue p r) (snd (_parse element (path ++ [Index j]) (Some item)))).
Proof.
  assert (Hbad : ~ is_array x ->
            (In (Issue p r) [invalid_type "array" x path] <->
             (p = path /\ ~ is_array x /\ r = wrong_type "array" x) \/
             (p = path /\ x = Some (JArray []) /\
              r = "Array must contain at least 1 element(s)") \/
             (exists items j item,
                 x = Some (JArray items) /\ items !! j = Some item /\
                 In (Issue p r) (snd (_parse element (path ++ [Index j]) (Some item)))))).
  { intros Hx. rewrite invalid_type_wrong_type. cbn [In]. split.
    - intros [[= <- <-]|[]]. left. auto.
    - intros [(-> & _ & ->)|[(_ & -> & _)|(items & _ & _ & -> & _)]].
      + left. reflexivity.
      + exfalso. apply Hx. eexists. reflexivity.
      + exfalso. apply Hx. eexists. reflexivity. }
  destruct x as [[| | | |items|]|]; try (apply Hbad; intros [items' [=]]).
  rewrite parse_ZArray_unfold. cbn [snd]. rewrite in_app_iff, in_items_issue.
  split.
  - intros [Hown|(j & item & Hj & Hin)].
    + destruct items as [|x items]; [|destruct Hown].
      destruct Hown as [[= <- <-]|[]]. right. left. auto.
    + right. right. exists items, j, item. auto.
  - intros [(_ & Hx & _)|[(-> & [= ->] & ->)|(items' & j & item & [= <-] & Hj & Hin)]].
    + exfalso. apply Hx. eexists. reflexivity.
    + left. left. reflexivity.
    + right. exists j, item. auto.
Qed.

Lemma day_number_issue path x p r :
  In (Issue p r) (snd (_parse (ZNumber [Int; Min 1]) path x)) <->
  p = path /\
  ((~ is_number x /\ r = wrong_type "number" x) \/
   (exists n, x = Some (JNumber n) /\ Number_isInteger n = false /\
              r = "Expected integer, received float") \/
   (exists n, x = Some (JNumber n) /\ number_lt_Z n 1 = true /\
              r = "Number must be greater than or equal to 1")).
Proof.
  assert (Hbad : ~ is_number x ->
            (In (Issue p r) [invalid_type "number" x path] <->
             p = path /\
             ((~ is_number x /\ r = wrong_type "number" x) \/
              (exists n, x = Some (JNumber n) /\ Number_isInteger n = false /\
                         r = "Expected integer, received float") \/
              (exists n, x = Some (JNumber n) /\ number_lt_Z n 1 = true /\
                         r = "Number must be greater than or equal to 1")))).
  { intros Hx. rewrite invalid_type_wrong_type. cbn [In]. split.
    - intros [[= <- <-]|[]]. auto.
    - intros (-> & [(_ & ->)|[(n & -> & _)|(n & -> & _)]]).
      + left. reflexivity.
      + exfalso. apply Hx. eexists. reflexivity.
      + exfalso. apply Hx. eexists. reflexivity. }
  destruct x as [[| |n| | |]|]; try (apply Hbad; intros [n' [=]]).
  cbn [_parse snd flat_map run_check app]. split.
  - intros Hin. apply in_app_iff in Hin as [Hin|Hin].
    + destruct (Number_isInteger n) eqn:Hint; [destruct Hin|].
      destruct Hin as [[= <- <-]|[]]. split; [reflexivity|].
      right. left. exists n. auto.
    + rewrite app_nil_r in Hin.
      destruct (number_lt_Z n 1) eqn:Hlt; [|destruct Hin].
      destruct Hin as [[= <- <-]|[]]. split; [reflexivity|].
      right. right. exists n. auto.
  - intros (-> & [(Hx & _)|[(n' & [= <-] & Hint & ->)|(n' & [= <-] & Hlt & ->)]]).
    + exfalso. apply Hx. eexists. reflexivity.
    + apply in_app_iff. left. rewrite Hint. left. reflexivity.
    + apply in_app_iff. right. rewrite Hlt. left. reflexivity.
Qed.

Lemma Activity_issue path a p r :
  In (Issue p r) (snd (_parse Activity path (Some a))) <->
  exists p', p = path ++ p' /\ activity_violation a p' r.
Proof.
  assert (Hbad : ~ is_object (Some a) ->
            (In (Issue p r) [invalid_type "object" (Some a) path] <->
             exists p', p = path ++ p' /\ activity_violation a p' r)).
  { intros Ha. rewrite invalid_type_wrong_type. cbn [In]. split.
    - intros [[= <- <-]|[]]. exists []. rewrite app_nil_r.
      split; [reflexivity|]. constructor. exact Ha.
    - intros (p' & -> & Hv). destruct Hv as [a _|props field _ _].
      + rewrite app_nil_r. left. reflexivity.
      + exfalso. apply Ha. eexists. reflexivity. }
  destruct a as [| | | | |props]; try (apply Hbad; intros [props' [=]]).
  rewrite Activity_issues, !in_app_iff, !ZString_issue. split.
  - intros [(-> & Hx & ->)|[(-> & Hx & ->)|[(-> & Hx & ->)|[]]]];
      eexists; (split; [reflexivity|]); constructor; cbn; auto.
  - intros (p' & -> & Hv). inversion Hv as [a Ha|props' field Hfield Hx]; subst.
    + exfalso. apply Ha. eexists. reflexivity.
    + destruct Hfield as [<-|[<-|[<-|[]]]]; auto 6.
Qed.

Lemma DayItinerary_issue path d p r :
  In (Issue p r) (snd (_parse DayItinerary path (Some d))) <->
  exists p', p = path ++ p' /\ day_violation d p' r.
Proof.
  assert (Hbad : ~ is_object (Some d) ->
            (In (Issue p r) [invalid_type "object" (Some d) path] <->
             exists p', p = path ++ p' /\ day_violation d p' r)).
  { intros Hd. rewrite invalid_type_wrong_type. cbn [In]. split.
    - intros [[= <- <-]|[]]. exists []. rewrite app_nil_r.
      split; [reflexivity|]. constructor. exact Hd.
    - intros (p' & -> & Hv). destruct Hv; try (exfalso; apply Hd; eexists; reflexivity).
      rewrite app_nil_r. left. reflexivity. }
  destruct d as [| | | | |props]; try (apply Hbad; intros [props' [=]]).
  rewrite DayItinerary_issues, !in_app_iff, day_number_issue, ZString_issue, ZArray_issue.
  split.
  - intros [(-> & Hday)|[(-> & Hx & ->)|[Hacts|[]]]].
    + destruct Hday as [(Hx & ->)|[(n & Hn & Hint & ->)|(n & Hn & Hlt & ->)]];
        eexists; (split; [reflexivity|]).
      * apply day_not_a_number. exact Hx.
      * eapply day_not_an_integer; eassumption.
      * eapply day_below_one; eassumption.
    + eexists. split; [reflexivity|]. apply theme_not_a_string. exact Hx.
    + destruct Hacts as [(-> & Hx & ->)|[(-> & Hx & ->)|(acts & j & a & Hx & Hj & Hin)]].
      * eexists. split; [reflexivity|]. apply activities_not_a_list. exact Hx.
      * eexists. split; [reflexivity|]. apply no_activities. exact Hx.
      * apply Activity_issue in Hin as (p' & -> & Hv).
        exists (Key "activities" :: Index j :: p').
        split; [rewrite <- !app_assoc; reflexivity|].
        eapply in_activity; eassumption.
  - intros (p' & -> & Hv).
    inversion Hv as [d Hd|props' Hx|props' n Hn Hint|props' n Hn Hlt|props' Hx|props' Hx
                     |props' Hx|props' acts j a p'' reason Hx Hj Ha]; subst.
    + exfalso. apply Hd. eexists. reflexivity.
    + left. split; [reflexivity|]. left. auto.
    + left. split; [reflexivity|]. right. left. exists n. auto.
    + left. split; [reflexivity|]. right. right. exists n. auto.
    + right. left. auto.
    + right. right. left. left. auto.
    + right. right. left. right. left. auto.
    + right. right. left. right. right. exists acts, j, a.
      split; [exact Hx|]. split; [exact Hj|].
      apply Activity_issue. exists p''.
      split; [rewrite <- !app_assoc; reflexivity|exact Ha].
Qed.

(** The issues of a value are its violations. *)
Lemma ItinerarySchema_issue v p r :
  In (Issue p r) (snd (_parse ItinerarySchema [] (Some v))) <-> violation v p r.
Proof.
  unfold ItinerarySchema. rewrite ZArray_issue. split.
  - intros [(-> & Hx & ->)|[(-> & [= ->] & ->)|(days & i & d & [= ->] & Hi & Hin)]].
    + apply not_a_day_list. exact Hx.
    + apply empty_day_list.
    + apply DayItinerary_issue in Hin as (p' & -> & Hv).
      eapply in_day; eassumption.
  - intros Hv. destruct Hv as [v Hx| |days i d p reason Hi Hd].
    + left. auto.
    + right. left. auto.
    + right. right. exists days, i, d. split; [reflexivity|]. split; [exact Hi|].
      apply DayItinerary_issue. exists p. split; [reflexivity|exact Hd].
Qed.

(** *** The failure message *)

Lemma append_assoc (a b c : string) : (a +:+ b) +:+ c = a +:+ (b +:+ c).
Proof.
  induction a as [|x a IH]; [reflexivity|].
  change (String x ((a +:+ b) +:+ c) = String x (a +:+ (b +:+ c))).
  f_equal. exact IH.
Qed.

Lemma append_nil_r (a : string) : a +:+ "" = a.
Proof.
  induction a as [|x a IH]; [reflexivity|].
  change (String x (a +:+ "") = String x a). f_equal. exact IH.
Qed.

Lemma occurs_after prefix needle text :
  occurs needle text -> occurs needle (prefix +:+ text).
Proof.
  intros (before & after & ->). exists (prefix +:+ before), after.
  rewrite append_assoc. reflexivity.
Qed.

Lemma join_occurs sep x l : In x l -> occurs x (join sep l).
Proof.
  induction l as [|y l IH]; [intros []|].
  intros [->|Hin].
  - destruct l as [|z l].
    + exists "", "". rewrite append_nil_r. reflexivity.
    + exists "", (sep +:+ join sep (z :: l)). reflexivity.
  - destruct l as [|z l]; [destruct Hin|].
    change (join sep (y :: z :: l)) with (y +:+ sep +:+ join sep (z :: l)).
    apply occurs_after, occurs_after, IH, Hin.
Qed.

(** The catch block writes a path as the specification shows it. *)
Lemma join_path_dotted p : join "." (map path_elem_to_string p) = dotted p.
Proof.
  induction p as [|e p IH]; [reflexivity|].
  destruct p as [|e' p]; [destruct e; reflexivity|].
  change (join "." (map path_elem_to_string (e :: e' :: p)))
    with (path_elem_to_string e +:+ "." +:+ join "." (map path_elem_to_string (e' :: p))).
  rewrite IH. destruct e; reflexivity.
Qed.

(** The failure message names every issue of a validation error. *)
Lemma failure_message_names p reason errors :
  In (Issue p reason) errors ->
  occurs (dotted p +:+ ": " +:+ reason) (failure_message (ZodError errors)).
Proof.
  intros Hin. unfold failure_message. apply occurs_after, join_occurs.
  rewrite <- join_path_dotted.
  exact (in_map render_issue errors (Issue p reason) Hin).
Qed.

(** C6: a value with a violation is rejected; the one error that
    validation throws holds an issue for every violation of the value, with
    its path and its reason, and for nothing else; and the failure message
    of the sweep shows every violation as its dotted path, a colon and the
    reason.  An empty day list, a day below 1 or not an integer, a day-plan
    without activities and an activity without [location] are among the
    violations. *)
Theorem ItinerarySchema_rejects_and_names_every_violation (v : json) p0 reason0 :
  violation v p0 reason0 ->
  exists errors,
    parse ItinerarySchema v = Throw errors /\
    (forall p reason, In (Issue p reason) errors <-> violation v p reason) /\
    (forall p reason,
        violation v p reason ->
        occurs (dotted p +:+ ": " +:+ reason) (failure_message (ZodError errors))).
Proof.
  intros Hv. unfold parse.
  destruct (_parse ItinerarySchema [] (Some v)) as [verdict issues] eqn:Hp.
  assert (Hiff : forall p reason, In (Issue p reason) issues <-> violation v p reason).
  { intros p reason. rewrite <- ItinerarySchema_issue, Hp. reflexivity. }
  exists issues. split; [|split; [exact Hiff|]].
  - destruct verdict as [[|] value|]; try reflexivity.
    exfalso. destruct (ItinerarySchema_valid _ _ _ Hp) as [-> _].
    exact (proj2 (Hiff p0 reason0) Hv).
  - intros p reason Hviol. apply failure_message_names, Hiff, Hviol.
Qed.

Lemma ItinerarySchema_rejects_and_names_every_violation_witness :
  let v := JArray [JObject [("day", JNumber (Finite (Qmake 0 1)));
                            ("theme", JString "Arrival");
                            ("activities",
                             JArray [JObject [("time", JString "09:00");
                                              ("description", JString "Senso-ji")]])]] in
  violation v [Index 0; Key "day"] "Number must be greater than or equal to 1" /\
  violation v [Index 0; Key "activities"; Index 0; Key "location"] "Required" /\
  (exists errors,
      parse ItinerarySchema v = Throw errors /\
      (forall p reason, In (Issue p reason) errors <-> violation v p reason) /\
      (forall p reason,
          violation v p reason ->
          occurs (dotted p +:+ ": " +:+ reason) (failure_message (ZodError errors)))) /\
  match parse ItinerarySchema v with
  | Throw errors =>
      failure_message (ZodError errors)
      = "Validation error: 0.day: Number must be greater than or equal to 1; 0.activities.0.location: Required"
  | Ret _ => False
  end.
Proof.
  intros v.
  assert (Hday : violation v [Index 0; Key "day"]
                   "Number must be greater than or equal to 1").
  { eapply (in_day _ 0%nat); [reflexivity|].
    eapply day_below_one; reflexivity. }
  split; [exact Hday|]. split; [|split].
  - eapply (in_day _ 0%nat); [reflexivity|].
    eapply (in_activity _ _ 0%nat); [reflexivity|reflexivity|].
    refine (not_a_string_field
              [("time", JString "09:00"); ("description", JString "Senso-ji")]
              "location" _ _); [cbn; auto|].
    intros [s Hs]. discriminate Hs.
  - exact (ItinerarySchema_rejects_and_names_every_violation v _ _ Hday).
  - vm_compute. reflexivity.
Defined.

End Validation.

(** ** firestore.js: what the two writes do to a document *)

Section DocumentWrites.
Import Runtime Documents.

Lemma saved_fields_other name :
  ~ In name saved_fields ->
  name <> "status" /\ name <> "updatedAt" /\ name <> "completedAt" /\
  name <> "error" /\ name <> "itinerary".
Proof. intros Hout. repeat split; intros ->; apply Hout; cbn; tauto. Qed.

Lemma saveItinerary_request_other a (doc : gmap string Firestore.value) name :
  ~ In name saved_fields ->
  Firestore.apply_patch (Firestore.saveItinerary_request a) doc !! name = doc !! name.
Proof.
  intros Hout. destruct (saved_fields_other name Hout) as (? & ? & ? & ? & ?).
  unfold Firestore.saveItinerary_request.
  destruct (Firestore.itinerary a) as [v|]; cbn;
    rewrite !lookup_insert_ne by congruence; reflexivity.
Qed.

Lemma saveItinerary_request_itinerary a (doc : gmap string Firestore.value) :
  Firestore.apply_patch (Firestore.saveItinerary_request a) doc !! "itinerary"
  = match Firestore.itinerary a with
    | Some v => Some (Firestore.jsonStringValue v)
    | None => doc !! "itinerary"
    end.
Proof.
  unfold Firestore.saveItinerary_request.
  destruct (Firestore.itinerary a) as [v|]; cbn; simplify_map_eq; reflexivity.
Qed.

(** X8: [saveItinerary] sets status, updatedAt, completedAt and error (null
    for a completedAt or an error that is null or empty), sets the
    itinerary only when one is given, and leaves every other field of the
    document as it was. *)
Theorem saveItinerary_writes_named_fields_only
    (a : Firestore.save_args) (doc : gmap string Firestore.value) :
  let doc' := Firestore.apply_patch (Firestore.saveItinerary_request a) doc in
  doc' !! "status" = Some (Firestore.stringValue (Firestore.status a)) /\
  doc' !! "updatedAt" = Some (Firestore.timestampValue (Firestore.updatedAt a)) /\
  doc' !! "completedAt"
  = Some (match Firestore.completedAt a with
          | Some t => Firestore.timestampValue t
          | None => Firestore.nullValue
          end) /\
  doc' !! "error"
  = Some (match Firestore.error a with
          | Some e => if String.eqb e "" then Firestore.nullValue
                      else Firestore.stringValue e
          | None => Firestore.nullValue
          end) /\
  doc' !! "itinerary"
  = match Firestore.itinerary a with
    | Some v => Some (Firestore.jsonStringValue v)
    | None => doc !! "itinerary"
    end /\
  forall name, ~ In name saved_fields -> doc' !! name = doc !! name.
Proof.
  intros doc'. subst doc'.
  split; [|split; [|split; [|split; [|split]]]].
  5: apply saveItinerary_request_itinerary.
  5: intros name Hout; apply saveItinerary_request_other; exact Hout.
  all: unfold Firestore.saveItinerary_request;
    destruct (Firestore.itinerary a) as [v|]; cbn; simplify_map_eq; reflexivity.
Qed.

Variable env : environment.

(** X9: [createItineraryDoc] either throws and leaves both stores as they
    were, or replaces the document of the job, whatever it held, by the
    initial one: status [processing], the destination, the duration and
    the creation time it was given, null completedAt, itinerary and error,
    and no other field.  It makes two calls at most and touches no other
    document. *)
Theorem createItineraryDoc_overwrites_or_leaves
    jobId destination durationDays createdAt w r w' :
  createItineraryDoc env jobId destination durationDays createdAt w = (r, w') ->
  kv w' = kv w /\
  (forall key, key <> jobId -> docs w' !! key = docs w !! key) /\
  (length (trace w') <= length (trace w) + 2)%nat /\
  match r with
  | Ret _ =>
      is_Some (docs w' !! jobId) /\
      field w' jobId "status" = Some (Firestore.stringValue "processing") /\
      field w' jobId "destination" = Some (Firestore.stringValue destination) /\
      field w' jobId "durationDays" = Some (Firestore.integerValue durationDays) /\
      field w' jobId "createdAt" = Some (Firestore.timestampValue createdAt) /\
      field w' jobId "completedAt" = Some Firestore.nullValue /\
      field w' jobId "itinerary" = Some Firestore.nullValue /\
      field w' jobId "error" = Some Firestore.nullValue /\
      forall name, ~ In name initial_fields -> field w' jobId name = None
  | Throw _ => docs w' = docs w
  end.
Proof.
  destruct w as [kv0 docs0 tr0].
  unfold createItineraryDoc, send_patch, bind, call, log. cbn [trace kv docs].
  destruct (fault env (length tr0) getAccessToken) as [e|].
  { intros [= <- <-]. cbn [kv docs trace]. rewrite length_app. cbn.
    repeat split; try reflexivity. lia. }
  destruct (fault env _ (firestore_patch jobId _)) as [e|].
  { intros [= <- <-]. cbn [kv docs trace]. rewrite !length_app. cbn.
    repeat split; try reflexivity. lia. }
  intros [= <- <-]. cbn [kv docs trace]. rewrite !length_app. cbn [length].
  split; [reflexivity|]. split; [|split; [lia|]].
  - intros key Hkey. rewrite lookup_insert_ne by congruence. reflexivity.
  - unfold field. cbn [docs]. rewrite lookup_insert_eq. cbn [default from_option id].
    split; [eexists; reflexivity|].
    unfold Firestore.apply_patch. cbn.
    repeat (split; [simplify_map_eq; reflexivity|]).
    intros name Hout.
    rewrite !lookup_insert_ne by (intros <-; apply Hout; cbn; tauto).
    apply lookup_empty.
Qed.

End DocumentWrites.

(** ** The sweep *)

Section Sweep.
Import Zod Queue Runtime Jobs ItinerarySpec SweepSpec Documents.
Variable env : environment.

(** *** Calls only ever add to the trace *)

Lemma extends_ret {E A} (a : A) : extends (@ret E A a).
Proof. intros w. exists []. cbn. rewrite app_nil_r. reflexivity. Qed.

Lemma extends_throw {E A} (e : E) : extends (@throw E A e).
Proof. intros w. exists []. cbn. rewrite app_nil_r. reflexivity. Qed.

Lemma extends_bind {E A B} (m : M E A) (k : A -> M E B) :
  extends m -> (forall a, extends (k a)) -> extends (bind m k).
Proof.
  intros Hm Hk w. unfold bind. destruct (Hm w) as [evs Hevs].
  destruct (m w) as [[a|e] w1]; cbn in Hevs.
  - destruct (Hk a w1) as [evs' Hevs']. exists (evs ++ evs').
    rewrite Hevs', Hevs, app_assoc. reflexivity.
  - exists evs. exact Hevs.
Qed.

Lemma extends_try_catch {E E' A} (m : M E A) (h : E -> M E' A) :
  extends m -> (forall e, extends (h e)) -> extends (try_catch m h).
Proof.
  intros Hm Hh w. unfold try_catch. destruct (Hm w) as [evs Hevs].
  destruct (m w) as [[a|e] w1]; cbn in Hevs.
  - exists evs. exact Hevs.
  - destruct (Hh e w1) as [evs' Hevs']. exists (evs ++ evs').
    rewrite Hevs', Hevs, app_assoc. reflexivity.
Qed.

Lemma extends_map_error {E E' A} (f : E -> E') (m : M E A) :
  extends m -> extends (map_error f m).
Proof. intros Hm. apply extends_try_catch; [exact Hm|]. intros e. apply extends_throw. Qed.

Lemma extends_call o : extends (call env o).
Proof.
  intros w. unfold call. destruct (fault env _ o); eexists; reflexivity.
Qed.

Lemma extends_Date_now {E} : extends (@Date_now env E).
Proof. intros w. exists []. cbn. rewrite app_nil_r. reflexivity. Qed.

Lemma extends_JOBS_KV_put key value : extends (JOBS_KV_put env key value).
Proof.
  apply extends_bind; [apply extends_call|]. intros _ w. exists [].
  cbn. rewrite app_nil_r. reflexivity.
Qed.

Lemma extends_JOBS_KV_delete key : extends (JOBS_KV_delete env key).
Proof.
  apply extends_bind; [apply extends_call|]. intros _ w. exists [].
  cbn. rewrite app_nil_r. reflexivity.
Qed.

Lemma extends_saveItinerary jobId a : extends (saveItinerary env jobId a).
Proof.
  unfold saveItinerary, send_patch.
  apply extends_bind; [apply extends_call|]. intros _.
  apply extends_bind; [apply extends_call|]. intros _ w. exists [].
  cbn. rewrite app_nil_r. reflexivity.
Qed.

Lemma extends_generate destination durationDays :
  extends (runWithTimeout_generateItinerary env destination durationDays).
Proof.
  intros w. unfold runWithTimeout_generateItinerary.
  destruct (generated env _); eexists; reflexivity.
Qed.

Lemma extends_attempt jobId job : extends (attempt env jobId job).
Proof.
  unfold attempt.
  apply extends_bind; [apply extends_map_error, extends_generate|]. intros raw.
  apply extends_bind.
  { destruct (parse ItinerarySchema raw); [apply extends_ret|apply extends_throw]. }
  intros itinerary. apply extends_bind; [apply extends_Date_now|]. intros nowTs.
  apply extends_bind; [apply extends_map_error, extends_saveItinerary|]. intros _.
  apply extends_map_error, extends_JOBS_KV_delete.
Qed.

Lemma extends_recover jobId job err : extends (recover env jobId job err).
Proof.
  unfold recover.
  apply extends_bind; [apply extends_Date_now|]. intros nowTs.
  apply extends_bind; [|intros message; apply extends_JOBS_KV_put].
  apply extends_try_catch; [|intros e; apply extends_ret].
  apply extends_bind; [apply extends_saveItinerary|]. intros _. apply extends_ret.
Qed.

(** *** Symbolic execution of the worker's computations *)

(** Unfold the monad and the worker's straight-line code, leaving the
    [try] statement and the oracles of the environment in place. *)
Ltac run_outer :=
  cbv beta iota zeta delta
    [process JOBS_KV_get JOBS_KV_put JOBS_KV_delete JOBS_KV_list
     bind ret throw call Date_now log set_error set_status set_lockedAt];
  cbn [kv docs trace fst snd
       Queue.status Queue.lockedAt Queue.destination Queue.durationDays
       Queue.createdAt Queue.error
       String.eqb Ascii.eqb Bool.eqb negb andb orb].

(** Split on the answer of the environment to the next call. *)
Ltac next_call :=
  match goal with
  | |- context [fault ?e ?n ?o] =>
      let err := fresh "e" in
      destruct (fault e n o) as [err|] eqn:?
  end.

(** Unfold everything, the [try] statement included. *)
Ltac run_all :=
  cbv beta iota zeta delta
    [process attempt recover saveItinerary send_patch
     JOBS_KV_get JOBS_KV_put JOBS_KV_delete JOBS_KV_list
     runWithTimeout_generateItinerary map_error try_catch
     bind ret throw call Date_now log set_error set_status set_lockedAt];
  cbn [kv docs trace fst snd
       Queue.status Queue.lockedAt Queue.destination Queue.durationDays
       Queue.createdAt Queue.error
       String.eqb Ascii.eqb Bool.eqb negb andb orb].

(** The term on which the evaluation of [t] is blocked. *)
Ltac blocked_on t :=
  lazymatch t with
  | match ?x with _ => _ end => blocked_on x
  | (match ?x with _ => _ end) _ => blocked_on x
  | _ => t
  end.

(** Split on whatever the run depends on next: the stored record, a
    condition of the code, or an answer of the environment. *)
Ltac next_choice :=
  lazymatch goal with
  | |- ?lhs = _ -> _ =>
      lazymatch lhs with
      | match _ with _ => _ end =>
          let x := blocked_on lhs in destruct x eqn:?
      | (match _ with _ => _ end) _ =>
          let x := blocked_on lhs in destruct x eqn:?
      end
  end.

Ltac run_to_leaves := run_all; repeat (next_choice; run_all).

(** C10: a listed key whose value is absent when read is skipped: the
    read is the only call made for it, nothing is written, nothing is
    thrown, and the loop goes on with the remaining keys. *)
Theorem sweep_skips_absent_record now jobId rest w :
  kv w !! jobId = None ->
  fault env (length (trace w)) (KV_get jobId) = None ->
  process env now jobId w = (Ret tt, log (Event (KV_get jobId) None) w) /\
  for_each_key env now (jobId :: rest) w
  = for_each_key env now rest (log (Event (KV_get jobId) None) w).
Proof.
  intros Habsent Hread.
  assert (Hp : process env now jobId w = (Ret tt, log (Event (KV_get jobId) None) w)).
  { unfold process, JOBS_KV_get, bind, call. rewrite Hread. cbn. rewrite Habsent.
    reflexivity. }
  split; [exact Hp|].
  cbn [for_each_key]. unfold bind at 1. rewrite Hp. reflexivity.
Qed.

(** *** Records that are not eligible *)

Lemma process_skips now jobId w :
  eligible now (kv w !! jobId) = false ->
  kv w !! jobId <> Some Null ->
  (forall s, kv w !! jobId = Some (Malformed s) -> s = "") ->
  fault env (length (trace w)) (KV_get jobId) = None ->
  process env now jobId w = (Ret tt, log (Event (KV_get jobId) None) w).
Proof.
  intros Hnot Hnull Hparse Hread. destruct w as [kv0 docs0 tr0]. cbn [kv trace] in *.
  unfold process, JOBS_KV_get, bind, call. cbn [trace]. rewrite Hread.
  cbn [log kv docs trace ret].
  destruct (kv0 !! jobId) as [[job| |v|s]|]; [| |reflexivity| |reflexivity].
  - cbn [eligible] in Hnot. apply orb_false_iff in Hnot as [Hpending Hstale].
    rewrite Hstale. cbn [ret]. rewrite Hpending. reflexivity.
  - congruence.
  - rewrite (Hparse s eq_refl). reflexivity.
Qed.

(** Whatever the environment does, a job object that is not eligible is
    only read: it is left as it is, and so is its document. *)
Lemma process_leaves_ineligible now jobId job w r w' :
  kv w !! jobId = Some (Serialized job) ->
  eligible now (Some (Serialized job)) = false ->
  process env now jobId w = (r, w') ->
  kv w' = kv w /\ docs w' = docs w /\
  exists f, trace w' = trace w ++ [Event (KV_get jobId) f].
Proof.
  intros Hrec Hnot. destruct w as [kv0 docs0 tr0]. cbn [kv trace] in *.
  unfold process, JOBS_KV_get, bind, call. cbn [trace].
  destruct (fault env (length tr0) (KV_get jobId)) as [e|].
  - intros [= <- <-]. repeat split. eexists. reflexivity.
  - cbn [log kv docs trace ret]. rewrite Hrec.
    cbn [eligible] in Hnot. apply orb_false_iff in Hnot as [Hpending Hstale].
    rewrite Hstale. cbn [ret]. rewrite Hpending. intros [= <- <-].
    repeat split. eexists. reflexivity.
Qed.

(** *** The queue record is deleted last *)

(** Reduce a leaf of the symbolic execution to the list of events made. *)
Ltac leaf_events Htr evs :=
  cbn [trace] in Htr; rewrite <- ?app_assoc in Htr;
  apply app_inv_head in Htr; cbn [app] in Htr; subst evs.



(** *** The failure path *)

Lemma failure_message_nonempty err : String.eqb (failure_message err) "" = false.
Proof.
  destruct err as [e|errors]; cbn.
  - destruct (String.eqb (err_message e) "") eqn:Hm; [reflexivity|exact Hm].
  - reflexivity.
Qed.

Lemma failure_message_neq err : failure_message err <> "".
Proof.
  intros Hempty. pose proof (failure_message_nonempty err) as Hne.
  rewrite Hempty in Hne. discriminate.
Qed.

Lemma append_neq (a b : string) : a <> "" -> a +:+ b <> "".
Proof. destruct a; [congruence|discriminate]. Qed.

Lemma failed_request ts err :
  Firestore.saveItinerary_request
    (Firestore.SaveArgs "failed" None ts None (Some (failure_message err)))
  = Firestore.Patch (Some ["status"; "updatedAt"; "completedAt"; "error"])
      [("status", Firestore.stringValue "failed");
       ("updatedAt", Firestore.timestampValue ts);
       ("completedAt", Firestore.nullValue);
       ("error", Firestore.stringValue (failure_message err))].
Proof.
  unfold Firestore.saveItinerary_request. cbn.
  rewrite failure_message_nonempty. reflexivity.
Qed.

Lemma failed_document ts message (doc : gmap string Firestore.value) :
  let doc' :=
    Firestore.apply_patch
      (Firestore.Patch (Some ["status"; "updatedAt"; "completedAt"; "error"])
         [("status", Firestore.stringValue "failed");
          ("updatedAt", Firestore.timestampValue ts);
          ("completedAt", Firestore.nullValue);
          ("error", Firestore.stringValue message)]) doc in
  doc' !! "status" = Some (Firestore.stringValue "failed") /\
  doc' !! "updatedAt" = Some (Firestore.timestampValue ts) /\
  doc' !! "completedAt" = Some Firestore.nullValue /\
  doc' !! "error" = Some (Firestore.stringValue message) /\
  doc' !! "itinerary" = doc !! "itinerary".
Proof.
  cbn. repeat split; simplify_map_eq; reflexivity.
Qed.

(** C2, as the code has it: when the attempt on a job throws, the [catch]
    block sends one durable write for that job, with status [failed], the
    non-empty error message, [updatedAt] set to the time of the failure
    and [completedAt] null; the itinerary is not in the update mask. *)
Theorem failed_attempt_marks_document_failed jobId job w err w1 r w2 :
  attempt env jobId job w = (Throw err, w1) ->
  try_catch (attempt env jobId job) (recover env jobId job) w = (r, w2) ->
  let ts := clock env (length (trace w1)) in
  let message := failure_message err in
  let req :=
    Firestore.Patch (Some ["status"; "updatedAt"; "completedAt"; "error"])
      [("status", Firestore.stringValue "failed");
       ("updatedAt", Firestore.timestampValue ts);
       ("completedAt", Firestore.nullValue);
       ("error", Firestore.stringValue message)] in
  message <> "" /\
  exists evs,
    trace w2 = trace w1 ++ evs /\
    (forall key req' f,
        In (Event (firestore_patch key req') f) evs -> key = jobId /\ req' = req) /\
    (fault env (length (trace w1)) getAccessToken = None ->
     exists f,
       evs !! 1%nat = Some (Event (firestore_patch jobId req) f) /\
       (f = None ->
        exists doc,
          docs w2 !! jobId = Some doc /\
          doc !! "status" = Some (Firestore.stringValue "failed") /\
          doc !! "updatedAt" = Some (Firestore.timestampValue ts) /\
          doc !! "completedAt" = Some Firestore.nullValue /\
          doc !! "error" = Some (Firestore.stringValue message))).
Proof.
  intros Hattempt Htry ts message req.
  unfold try_catch in Htry. rewrite Hattempt in Htry.
  split.
  { intros Hempty. pose proof (failure_message_nonempty err) as Hne.
    fold message in Hne. rewrite Hempty in Hne. discriminate. }
  subst ts message req. revert Htry. clear Hattempt.
  destruct w1 as [kv1 docs1 tr1].
  run_to_leaves; intros [= <- <-]; cbn [trace docs]; rewrite <- ?app_assoc; cbn [app];
    eexists; (split; [reflexivity|]); rewrite ?failed_request.
  all: split;
    [ intros key req' f Hin; cbn [In] in Hin;
      repeat (destruct Hin as [Hin|Hin]; try discriminate Hin);
      try contradiction;
      injection Hin as <- <- <-; split; reflexivity
    | intros Htoken; try congruence ].
  all: eexists; (split; [reflexivity|]); try discriminate.
  all: intros _; eexists; rewrite lookup_insert_eq; (split; [reflexivity|]).
  all: rewrite ?failed_request.
  all: match goal with
       | |- context [Firestore.apply_patch ?q ?d] =>
           destruct (failed_document (clock env (length tr1)) (failure_message err) d)
             as (H1 & H2 & H3 & H4 & _)
       end; auto.
Qed.

(** *** What the success path stores *)

Lemma parse_accepts_declared_fields_only raw itinerary :
  parse ItinerarySchema raw = Ret itinerary -> declared_fields_only itinerary.
Proof.
  unfold parse.
  destruct (_parse ItinerarySchema [] (Some raw)) as [[[|] v|] issues] eqn:Hp;
    try discriminate.
  intros [= <-]. exact (proj2 (ItinerarySchema_valid _ _ _ Hp)).
Qed.

Lemma completed_document ts itinerary (doc : gmap string Firestore.value) :
  let doc' :=
    Firestore.apply_patch
      (Firestore.saveItinerary_request
         (Firestore.SaveArgs "completed" (Some itinerary) ts (Some ts) None)) doc in
  doc' !! "status" = Some (Firestore.stringValue "completed") /\
  doc' !! "itinerary" = Some (Firestore.jsonStringValue itinerary).
Proof.
  cbn. repeat split; simplify_map_eq; reflexivity.
Qed.

(** C9: what the success path persists is the value validation returned,
    not the generator's: it has the declared fields and no others, and it
    is the itinerary field of the durable write and of the document. *)
Theorem success_write_stores_validated_itinerary jobId job w raw itinerary r w' :
  generated env (length (trace w)) = Ret raw ->
  parse ItinerarySchema raw = Ret itinerary ->
  attempt env jobId job w = (r, w') ->
  declared_fields_only itinerary /\
  (fault env (length (trace w) + 1) getAccessToken = None ->
   exists ts f later,
     trace w'
     = trace w ++
       Event (generate (destination job) (durationDays job)) None ::
       Event getAccessToken None ::
       Event (firestore_patch jobId
                (Firestore.Patch
                   (Some ["status"; "updatedAt"; "completedAt"; "error"; "itinerary"])
                   [("status", Firestore.stringValue "completed");
                    ("updatedAt", Firestore.timestampValue ts);
                    ("completedAt", Firestore.timestampValue ts);
                    ("error", Firestore.nullValue);
                    ("itinerary", Firestore.jsonStringValue itinerary)])) f ::
       later /\
     (f = None ->
      exists doc,
        docs w' !! jobId = Some doc /\
        doc !! "status" = Some (Firestore.stringValue "completed") /\
        doc !! "itinerary" = Some (Firestore.jsonStringValue itinerary))).
Proof.
  intros Hgen Hparse Hrun.
  split; [exact (parse_accepts_declared_fields_only _ _ Hparse)|].
  intros Htoken. revert Hrun.
  destruct w as [kv0 docs0 tr0]. cbn [trace] in Hgen, Htoken.
  run_all. rewrite Hgen. run_all. rewrite Hparse. run_all.
  rewrite length_app. cbn [length]. rewrite Htoken. run_all.
  next_choice; run_all.
  - intros [= <- <-]; cbn [trace docs].
    eexists _, (Some _), []. rewrite <- !app_assoc.
    split; [reflexivity|discriminate].
  - next_choice; run_all; intros [= <- <-]; cbn [trace docs].
    all: eexists _, None, _; rewrite <- ?app_assoc; (split; [reflexivity|]).
    all: intros _; eexists; rewrite lookup_insert_eq; (split; [reflexivity|]).
    all: apply completed_document.
Qed.

(** *** A whole pass *)

Lemma marked_failed_not_eligible now stored :
  marked_failed stored -> eligible now stored = false.
Proof.
  intros (job & message & -> & Hstatus & _). cbn. rewrite Hstatus. reflexivity.
Qed.

Lemma settled_trans now a b c : settled now a b -> settled now b c -> settled now a c.
Proof.
  unfold settled. destruct (eligible now a) eqn:Ha.
  - intros [->|Hfailed].
    + cbn. intros ->. left. reflexivity.
    + rewrite (marked_failed_not_eligible _ _ Hfailed). intros ->. right. exact Hfailed.
  - intros ->. rewrite Ha. intros ->. reflexivity.
Qed.

(** Lookups in a store after the writes of one job. *)
Ltac other_key :=
  repeat first [ rewrite lookup_insert_ne by congruence
               | rewrite lookup_delete_ne by congruence ].
Ltac same_key :=
  repeat first [ rewrite lookup_insert_eq | rewrite lookup_delete_eq ].

(** Discharge the leaves in which a queue call failed. *)
Ltac queue_call_failed Hrel :=
  match goal with
  | H : fault _ ?n (KV_get ?k) = Some _ |- _ =>
      exfalso; rewrite (proj1 (proj2 (Hrel n)) k) in H; discriminate H
  | H : fault _ ?n (KV_put ?k ?v) = Some _ |- _ =>
      exfalso; rewrite (proj2 (proj2 (Hrel n)) k v) in H; discriminate H
  end.

Lemma process_settles now jobId w r w' :
  queue_reliable env ->
  kv w !! jobId <> Some Null ->
  (forall s, kv w !! jobId = Some (Malformed s) -> s = "") ->
  process env now jobId w = (r, w') ->
  r = Ret tt /\
  settled now (kv w !! jobId) (kv w' !! jobId) /\
  (forall key, key <> jobId -> kv w' !! key = kv w !! key) /\
  (forall stored,
      kv w' !! jobId = Some stored ->
      kv w !! jobId = Some stored \/ exists job, stored = Serialized job) /\
  exists evs, trace w' = trace w ++ Event (KV_get jobId) None :: evs.
Proof.
  intros Hrel Hnull Hparse. destruct w as [kv0 docs0 tr0].
  cbn [kv trace] in *.
  run_to_leaves; intros [= <- <-]; cbn [kv trace].
  all: try queue_call_failed Hrel.
  all: try congruence.
  all: try match goal with
           | Hp : forall s0, Some (Malformed ?s) = Some (Malformed s0) -> s0 = "",
             Hs : String.eqb ?s "" = false |- _ =>
               exfalso; rewrite (Hp s eq_refl) in Hs; discriminate Hs
           end.
  all: (split; [reflexivity|]).
  all: split;
    [ unfold settled, eligible
    | split;
      [ intros key Hkey; other_key; reflexivity
      | split;
        [ intros stored; same_key; intros Hstored;
          first [ left; exact Hstored
                | left; congruence
                | right; injection Hstored as <-; eexists; reflexivity
                | discriminate Hstored ]
        | eexists; rewrite <- ?app_assoc; reflexivity ] ] ].
  all: same_key; cbn beta iota; try reflexivity; try assumption.
  all: rewrite Heqb, ?orb_true_r, ?orb_false_r.
  all: try match goal with
           | H : negb ?b = false |- _ => apply negb_false_iff in H; rewrite H
           | H : negb ?b = true |- _ => apply negb_true_iff in H; rewrite H
           end.
  all: try reflexivity; try assumption.
  all: try (left; reflexivity).
  all: right; eexists _, _; (split; [reflexivity|]); cbn [status error];
    (split; [reflexivity|]); (split; [reflexivity|]).
  all: try (first [ apply failure_message_neq | apply append_neq, failure_message_neq ]).
  all: match goal with
       | |- context [err_message ?e] =>
           first [ exact (failure_message_neq (Js e))
                 | exact (append_neq _ _ (failure_message_neq (Js e))) ]
       | |- context [map render_issue ?l] =>
           first [ exact (failure_message_neq (ZodError l))
                 | exact (append_neq _ _ (failure_message_neq (ZodError l))) ]
       end.
Qed.

(** A record that the worker wrote can be read by the sweep. *)
Lemma worker_written_readable w key :
  worker_written w ->
  kv w !! key <> Some Null /\
  (forall s, kv w !! key = Some (Malformed s) -> s = "").
Proof.
  intros Hjobs. split.
  - intros Hnull. destruct (Hjobs _ _ Hnull) as [job [=]].
  - intros s Hs. destruct (Hjobs _ _ Hs) as [job [=]].
Qed.

Lemma process_keeps_worker_written now jobId w r w' :
  queue_reliable env -> worker_written w ->
  process env now jobId w = (r, w') ->
  worker_written w'.
Proof.
  intros Hrel Hjobs Hrun.
  destruct (worker_written_readable w jobId Hjobs) as [Hnull Hparse].
  destruct (process_settles now jobId w r w' Hrel Hnull Hparse Hrun)
    as (_ & _ & Hothers & Hown & _).
  intros key stored Hstored. destruct (decide (key = jobId)) as [->|Hne].
  - destruct (Hown _ Hstored) as [Hold|Hjob]; [exact (Hjobs _ _ Hold)|exact Hjob].
  - rewrite (Hothers key Hne) in Hstored. exact (Hjobs _ _ Hstored).
Qed.

Lemma for_each_key_settles now keys : forall w,
  queue_reliable env -> worker_written w ->
  exists w',
    for_each_key env now keys w = (Ret tt, w') /\
    worker_written w' /\
    (forall key,
        (key ∈ keys -> settled now (kv w !! key) (kv w' !! key)) /\
        (key ∉ keys -> kv w' !! key = kv w !! key)) /\
    (forall key, key ∈ keys -> In (Event (KV_get key) None) (trace w')) /\
    exists evs, trace w' = trace w ++ evs.
Proof.
  induction keys as [|jobId rest IH]; intros w Hrel Hjobs.
  - exists w. cbn. split; [reflexivity|]. split; [exact Hjobs|].
    split; [|split].
    + intros key. split; [intros Hin; inversion Hin|reflexivity].
    + intros key Hin. inversion Hin.
    + exists []. rewrite app_nil_r. reflexivity.
  - cbn [for_each_key]. unfold bind.
    destruct (process env now jobId w) as [r w1] eqn:Hp.
    pose proof (process_keeps_worker_written now jobId w r w1 Hrel Hjobs Hp) as Hjobs1.
    destruct (worker_written_readable w jobId Hjobs) as [Hnull Hparse].
    destruct (process_settles now jobId w r w1 Hrel Hnull Hparse Hp)
      as (-> & Hjob & Hothers & _ & evs1 & Htr1).
    destruct (IH w1 Hrel Hjobs1) as (w' & Hrun & Hjobs' & Hkeys & Hread & evs & Htr).
    exists w'. split; [exact Hrun|]. split; [exact Hjobs'|]. split; [|split].
    + intros key. destruct (Hkeys key) as [Hin Hout]. split.
      * intros Hkey. destruct (decide (key = jobId)) as [->|Hne].
        -- destruct (decide (jobId ∈ rest)) as [Hr|Hr].
           ++ exact (settled_trans _ _ _ _ Hjob (Hin Hr)).
           ++ rewrite (Hout Hr). exact Hjob.
        -- apply elem_of_cons in Hkey as [Heq|Hr]; [contradiction|].
           rewrite <- (Hothers key Hne). exact (Hin Hr).
      * intros Hkey. apply not_elem_of_cons in Hkey as [Hne Hr].
        rewrite (Hout Hr). exact (Hothers key Hne).
    + intros key Hkey. apply elem_of_cons in Hkey as [->|Hr].
      * rewrite Htr, Htr1. apply in_or_app. left. apply in_or_app. right. left.
        reflexivity.
      * exact (Hread key Hr).
    + exists ((Event (KV_get jobId) None :: evs1) ++ evs).
      rewrite Htr, Htr1, app_assoc. reflexivity.
Qed.

(** C3, as the code has it: when the queue store answers its list, get and
    put calls and every stored record is a job object as the worker writes
    them, then whatever generation, validation, the token request, the
    durable writes and the queue delete throw, [processPendingJobs]
    returns without throwing, reads every listed key, and leaves every
    listed record that was eligible either deleted or marked failed with a
    message, and every other listed record as it was. *)
Theorem sweep_settles_every_listed_record w :
  queue_reliable env -> worker_written w ->
  exists w',
    processPendingJobs env w = (Ret tt, w') /\
    forall key, key ∈ listing env ->
      In (Event (KV_get key) None) (trace w') /\
      settled (clock env (length (trace w) + 1)) (kv w !! key) (kv w' !! key).
Proof.
  intros Hrel Hjobs. unfold processPendingJobs, JOBS_KV_list, bind, call, ret, Date_now.
  rewrite (proj1 (Hrel (length (trace w)))).
  set (w0 := log (Event KV_list None) w).
  assert (Hjobs0 : worker_written w0) by exact Hjobs.
  destruct (for_each_key_settles (clock env (length (trace w0))) (listing env) w0 Hrel Hjobs0)
    as (w' & Hrun & _ & Hkeys & Hread & _).
  exists w'. split; [exact Hrun|].
  intros key Hkey. split; [exact (Hread key Hkey)|].
  replace (length (trace w) + 1)%nat with (length (trace w0))
    by (unfold w0, log; cbn [trace]; rewrite length_app; reflexivity).
  exact (proj1 (Hkeys key) Hkey).
Qed.

(** *** Stale locks *)

(** What one job's processing never does to other keys. *)
Lemma process_frame now jobId w r w' :
  process env now jobId w = (r, w') ->
  (forall key, key <> jobId ->
     kv w' !! key = kv w !! key /\ docs w' !! key = docs w !! key) /\
  (forall name, ~ In name saved_fields -> field w' jobId name = field w jobId name).
Proof.
  destruct w as [kv0 docs0 tr0].
  run_to_leaves; intros [= <- <-].
  all: split;
    [ intros key Hkey; cbn [kv docs]; split;
      repeat first [ rewrite lookup_insert_ne by congruence
                   | rewrite lookup_delete_ne by congruence ];
      reflexivity
    | intros name Hout; unfold field; cbn [docs];
      repeat (rewrite lookup_insert_eq; cbn [default from_option id];
              rewrite saveItinerary_request_other by exact Hout);
      reflexivity ].
Qed.

(** The only key a job's processing reads is its own. *)
Lemma process_reads_own_key now jobId w r w' evs :
  process env now jobId w = (r, w') ->
  trace w' = trace w ++ evs ->
  forall key f, In (Event (KV_get key) f) evs -> key = jobId.
Proof.
  destruct w as [kv0 docs0 tr0].
  run_to_leaves; intros [= <- <-] Htr; leaf_events Htr evs.
  all: intros key f Hin; cbn [In] in Hin.
  all: repeat (destruct Hin as [Hin|Hin]; try discriminate Hin).
  all: try contradiction.
  all: injection Hin as <-; reflexivity.
Qed.

(** The only key a job's processing writes under is its own. *)
Lemma process_writes_own_key now jobId w r w' :
  process env now jobId w = (r, w') ->
  exists evs,
    trace w' = trace w ++ evs /\
    forall ev key, In ev evs -> writes_to key ev -> key = jobId.
Proof.
  destruct w as [kv0 docs0 tr0].
  run_to_leaves; intros [= <- <-]; cbn [trace]; rewrite <- ?app_assoc; cbn [app].
  all: eexists; (split; [reflexivity|]).
  all: intros ev key Hin Hwrites; cbn [In] in Hin.
  all: repeat (destruct Hin as [<-|Hin];
               [cbn [writes_to] in Hwrites;
                first [contradiction | symmetry; exact Hwrites]|]).
  all: contradiction.
Qed.

(** With a working queue store, a stale lock is reset right after the
    read, and the record is locked anew right after that. *)
Lemma process_resets_stale now jobId job t w r w' :
  queue_reliable env ->
  kv w !! jobId = Some (Serialized job) ->
  status job = "in-progress" ->
  lockedAt job = Some t ->
  600000 < now - t ->
  process env now jobId w = (r, w') ->
  exists later,
    trace w'
    = trace w ++
      [Event (KV_get jobId) None;
       Event (KV_put jobId
                (Serialized (Job (destination job) (durationDays job) "pending"
                                 (createdAt job) (Some t) None))) None;
       Event (KV_put jobId
                (Serialized (Job (destination job) (durationDays job) "in-progress"
                                 (createdAt job)
                                 (Some (clock env (length (trace w) + 2))) None))) None]
      ++ later.
Proof.
  intros Hrel Hrec Hstatus Hlock Hold.
  destruct job as [dest dur st created locked err].
  destruct w as [kv0 docs0 tr0]. cbn in Hrec, Hstatus, Hlock. subst st locked.
  apply Z.ltb_lt in Hold.
  run_outer. rewrite (proj1 (proj2 (Hrel _))). run_outer. rewrite Hrec. run_outer.
  unfold lock_expired. run_outer. rewrite Hold. run_outer.
  rewrite (proj2 (proj2 (Hrel _))). run_outer.
  rewrite (proj2 (proj2 (Hrel _))). run_outer.
  match goal with
  | |- context [try_catch ?m ?h ?w2] =>
      destruct (extends_try_catch m h (extends_attempt _ _)
                  (extends_recover _ _) w2) as [evs Hevs];
      destruct (try_catch m h w2) as [r2 w2'] eqn:Htry
  end.
  cbn [snd trace] in Hevs. intros [= <- <-]. exists evs. rewrite Hevs.
  rewrite <- !app_assoc. cbn [app]. rewrite !length_app. cbn [length].
  replace (length tr0 + 1 + 1)%nat with (length tr0 + 2)%nat by lia. reflexivity.
Qed.

Lemma for_each_key_resets_stale now keys : forall w jobId job t,
  queue_reliable env -> worker_written w ->
  jobId ∈ keys ->
  kv w !! jobId = Some (Serialized job) ->
  status job = "in-progress" ->
  lockedAt job = Some t ->
  600000 < now - t ->
  exists w' earlier later,
    for_each_key env now keys w = (Ret tt, w') /\
    trace w'
    = trace w ++ earlier ++
      [Event (KV_get jobId) None;
       Event (KV_put jobId
                (Serialized (Job (destination job) (durationDays job) "pending"
                                 (createdAt job) (Some t) None))) None;
       Event (KV_put jobId
                (Serialized (Job (destination job) (durationDays job) "in-progress"
                                 (createdAt job)
                                 (Some (clock env (length (trace w) + length earlier + 2)))
                                 None))) None]
      ++ later /\
    forall f, ~ In (Event (KV_get jobId) f) earlier.
Proof.
  induction keys as [|key rest IH]; intros w jobId job t Hrel Hjobs Hin Hrec Hstatus Hlock Hold.
  - inversion Hin.
  - cbn [for_each_key]. unfold bind.
    destruct (process env now key w) as [r w1] eqn:Hp.
    pose proof (process_keeps_worker_written now key w r w1 Hrel Hjobs Hp) as Hjobs1.
    destruct (worker_written_readable w key Hjobs) as [Hnull Hparse].
    destruct (process_settles now key w r w1 Hrel Hnull Hparse Hp)
      as (-> & _ & Hothers & _ & evs1 & Htr1).
    destruct (decide (key = jobId)) as [->|Hne].
    + destruct (process_resets_stale now jobId job t w _ w1 Hrel Hrec Hstatus Hlock Hold Hp)
        as [later1 Htr].
      destruct (for_each_key_settles now rest w1 Hrel Hjobs1)
        as (w' & Hrun & _ & _ & _ & evs & Hevs).
      exists w', [], (later1 ++ evs). split; [exact Hrun|]. split; [|intros f []].
      rewrite Hevs, Htr. cbn [app length]. rewrite Nat.add_0_r, <- !app_assoc.
      reflexivity.
    + apply elem_of_cons in Hin as [Heq|Hin]; [congruence|].
      rewrite <- (Hothers jobId ltac:(congruence)) in Hrec.
      destruct (IH w1 jobId job t Hrel Hjobs1 Hin Hrec Hstatus Hlock Hold)
        as (w' & earlier & later & Hrun & Htr & Hfirst).
      exists w', ((Event (KV_get key) None :: evs1) ++ earlier), later.
      split; [exact Hrun|]. split.
      * rewrite Htr, Htr1, length_app, <- !app_assoc.
        rewrite !length_app, Nat.add_assoc. reflexivity.
      * intros f Hread. apply in_app_iff in Hread as [Hread|Hread];
          [|exact (Hfirst f Hread)].
        apply Hne. symmetry.
        exact (process_reads_own_key now key w _ w1 _ Hp Htr1 jobId f Hread).
Qed.

(** Whatever the environment does, a pass leaves a job object that is not
    eligible, and its document, as they were, and writes nothing under its
    key. *)
Lemma for_each_key_leaves_ineligible now keys : forall w r w' jobId job,
  kv w !! jobId = Some (Serialized job) ->
  eligible now (Some (Serialized job)) = false ->
  for_each_key env now keys w = (r, w') ->
  kv w' !! jobId = Some (Serialized job) /\
  docs w' !! jobId = docs w !! jobId /\
  exists evs,
    trace w' = trace w ++ evs /\ forall ev, In ev evs -> ~ writes_to jobId ev.
Proof.
  induction keys as [|key rest IH]; intros w r w' jobId job Hrec Hnot.
  - cbn. intros [= <- <-]. split; [exact Hrec|]. split; [reflexivity|].
    exists []. rewrite app_nil_r. split; [reflexivity|intros ev []].
  - cbn [for_each_key]. unfold bind.
    destruct (process env now key w) as [r1 w1] eqn:Hp.
    assert (Hkept : kv w1 !! jobId = Some (Serialized job) /\
                    docs w1 !! jobId = docs w !! jobId /\
                    exists evs1, trace w1 = trace w ++ evs1 /\
                                 forall ev, In ev evs1 -> ~ writes_to jobId ev).
    { destruct (decide (key = jobId)) as [->|Hne].
      - destruct (process_leaves_ineligible now jobId job w r1 w1 Hrec Hnot Hp)
          as (-> & -> & f & Htr).
        split; [exact Hrec|]. split; [reflexivity|].
        eexists. split; [exact Htr|]. intros ev [<-|[]] Hwrites. exact Hwrites.
      - destruct (proj1 (process_frame now key w r1 w1 Hp) jobId ltac:(congruence))
          as [-> ->].
        split; [exact Hrec|]. split; [reflexivity|].
        destruct (process_writes_own_key now key w r1 w1 Hp) as (evs1 & Htr & Hown).
        exists evs1. split; [exact Htr|]. intros ev Hin Hwrites.
        apply Hne. symmetry. exact (Hown ev jobId Hin Hwrites). }
    destruct Hkept as (Hrec1 & Hdoc1 & evs1 & Htr1 & Hquiet1).
    destruct r1 as [[]|e].
    + intros Hrest.
      destruct (IH w1 r w' jobId job Hrec1 Hnot Hrest)
        as (Hrec' & Hdoc' & evs & Htr & Hquiet).
      split; [exact Hrec'|]. split; [rewrite Hdoc'; exact Hdoc1|].
      exists (evs1 ++ evs). split; [rewrite Htr, Htr1, app_assoc; reflexivity|].
      intros ev Hin. apply in_app_iff in Hin as [Hin|Hin]; [exact (Hquiet1 ev Hin)|].
      exact (Hquiet ev Hin).
    + intros [= <- <-]. split; [exact Hrec1|]. split; [exact Hdoc1|].
      exists evs1. split; [exact Htr1|exact Hquiet1].
Qed.

(** C4, as the code has it: an in-progress record of a listed key whose
    lock is older than 600 seconds at the time the sweep takes after
    listing is, when the queue store answers and the stored records are
    job objects, written back as pending and without its error right after
    the sweep first reads it, and locked anew right after that; the sweep
    returns.  A lock of at most 600 seconds leaves the record and its
    document as they were, and the sweep writes nothing under the key,
    whatever fails. *)
Theorem stale_lock_reset_before_processing w r w' jobId job t :
  processPendingJobs env w = (r, w') ->
  kv w !! jobId = Some (Serialized job) ->
  status job = "in-progress" ->
  lockedAt job = Some t ->
  let now := clock env (length (trace w) + 1) in
  (600000 < now - t ->
   queue_reliable env -> worker_written w -> jobId ∈ listing env ->
   r = Ret tt /\
   exists earlier later,
     trace w'
     = trace w ++ Event KV_list None :: earlier ++
       [Event (KV_get jobId) None;
        Event (KV_put jobId
                 (Serialized (Job (destination job) (durationDays job) "pending"
                                  (createdAt job) (Some t) None))) None;
        Event (KV_put jobId
                 (Serialized (Job (destination job) (durationDays job) "in-progress"
                                  (createdAt job)
                                  (Some (clock env (length (trace w) + length earlier + 3)))
                                  None))) None]
       ++ later /\
     forall f, ~ In (Event (KV_get jobId) f) earlier) /\
  (now - t <= 600000 ->
   kv w' !! jobId = Some (Serialized job) /\
   docs w' !! jobId = docs w !! jobId /\
   exists evs,
     trace w' = trace w ++ evs /\ forall ev, In ev evs -> ~ writes_to jobId ev).
Proof.
  intros Hrun Hrec Hstatus Hlock now. subst now. revert Hrun.
  unfold processPendingJobs, JOBS_KV_list, bind, call, ret, Date_now.
  set (w0 := log (Event KV_list None) w).
  assert (Hlen : length (trace w0) = (length (trace w) + 1)%nat)
    by (unfold w0, log; cbn [trace]; rewrite length_app; reflexivity).
  intros Hrun. split.
  - intros Hold Hrel Hjobs Hlisted.
    rewrite (proj1 (Hrel (length (trace w)))) in Hrun. fold w0 in Hrun.
    rewrite <- Hlen in Hold.
    destruct (for_each_key_resets_stale (clock env (length (trace w0))) (listing env)
                w0 jobId job t Hrel Hjobs Hlisted Hrec Hstatus Hlock Hold)
      as (w1 & earlier & later & Hfor & Htr & Hfirst).
    rewrite Hfor in Hrun. injection Hrun as <- <-. split; [reflexivity|].
    exists earlier, later. split; [|exact Hfirst].
    rewrite Htr, Hlen. unfold w0, log. cbn [trace]. rewrite <- !app_assoc. cbn [app].
    replace (length (trace w) + 1 + length earlier + 2)%nat
      with (length (trace w) + length earlier + 3)%nat by lia.
    reflexivity.
  - intros Hfresh.
    assert (Hnot : eligible (clock env (length (trace w0))) (Some (Serialized job)) = false).
    { cbn [eligible]. unfold lock_expired. rewrite Hstatus, Hlock, Hlen. cbn.
      apply Z.ltb_ge. exact Hfresh. }
    destruct (fault env (length (trace w)) KV_list) as [e|].
    + injection Hrun as <- <-. split; [exact Hrec|]. split; [reflexivity|].
      eexists. split; [reflexivity|]. intros ev [<-|[]] Hwrites. exact Hwrites.
    + fold w0 in Hrun.
      destruct (for_each_key_leaves_ineligible _ _ w0 r w' jobId job Hrec Hnot Hrun)
        as (Hrec' & Hdoc' & evs & Htr & Hquiet).
      split; [exact Hrec'|]. split; [exact Hdoc'|].
      exists (Event KV_list None :: evs). split.
      * rewrite Htr. unfold w0, log. cbn [trace]. rewrite <- app_assoc. reflexivity.
      * intros ev [<-|Hin]; [intros Hwrites; exact Hwrites|exact (Hquiet ev Hin)].
Qed.

End Sweep.

(** ** Submission *)

Section Submission.
Import Queue Runtime Index.
Variable env : environment.


End Submission.

(** ** Concrete runs of the properties above *)

Section Runs.
Import Zod Queue Runtime Jobs Index ItinerarySpec SweepSpec Scenario.


(** A request whose duration overflows is accepted as well: the queue
    record holds [null] for it, while the task that creates the document
    is given [Infinity]. *)
Lemma submission_stores_null_for_overflow :
  fst overflowing_submission
  = Ret (HttpResponse 202 "job-1",
         [CreateItineraryDoc "job-1" "Tokyo, Japan" (Infinity false) 1754733600000;
          ProcessPendingJobs]) /\
  kv (snd overflowing_submission) !! "job-1"
  = Some (Serialized (Job "Tokyo, Japan" None "pending" 1754733600000 None None)).
Proof.
  split; vm_compute; reflexivity.
Qed.


(** C2: a failed attempt leaves [completedAt] null in the durable
    document, not the time of the failure. *)
Lemma failed_write_leaves_completedAt_null :
  trace (snd generation_failure_run)
  = [Event (KV_get "job-1") None;
     Event (KV_put "job-1"
              (Serialized (Job "Tokyo, Japan" five "in-progress" 1754733600000
                               (Some 1754733600001) None))) None;
     Event (generate "Tokyo, Japan" five)
           (Some (new_Error "LLM request failed: HTTP 503"));
     Event getAccessToken None;
     Event (firestore_patch "job-1"
              (Firestore.Patch (Some ["status"; "updatedAt"; "completedAt"; "error"])
                 [("status", Firestore.stringValue "failed");
                  ("updatedAt", Firestore.timestampValue 1754733600003);
                  ("completedAt", Firestore.nullValue);
                  ("error", Firestore.stringValue "LLM request failed: HTTP 503")]))
           None;
     Event (KV_put "job-1"
              (Serialized (Job "Tokyo, Japan" five "failed" 1754733600000
                               (Some 1754733600001)
                               (Some "LLM request failed: HTTP 503")))) None] /\
  (docs (snd generation_failure_run) !! "job-1" ≫= fun doc => doc !! "status")
  = Some (Firestore.stringValue "failed") /\
  (docs (snd generation_failure_run) !! "job-1" ≫= fun doc => doc !! "updatedAt")
  = Some (Firestore.timestampValue 1754733600003) /\
  (docs (snd generation_failure_run) !! "job-1" ≫= fun doc => doc !! "completedAt")
  = Some Firestore.nullValue.
Proof.
  repeat split; vm_compute; reflexivity.
Qed.

(** C3: when the queue store refuses the lock write, the error leaves
    [processPendingJobs], no failed state is written anywhere, and the
    second listed job, still pending, is never read. *)
Lemma lock_write_error_aborts_sweep :
  fst refused_lock_run = Throw (new_Error "KV PUT failed: 500") /\
  trace (snd refused_lock_run)
  = [Event KV_list None;
     Event (KV_get "job-1") None;
     Event (KV_put "job-1"
              (Serialized (Job "Tokyo, Japan" five "in-progress" 1754733600000
                               (Some 1754733600002) None)))
           (Some (new_Error "KV PUT failed: 500"))] /\
  docs (snd refused_lock_run) !! "job-1" = None /\
  kv (snd refused_lock_run) !! "job-1" = Some (Serialized pending_job) /\
  kv (snd refused_lock_run) !! "job-2" = Some (Serialized pending_job) /\
  listing queue_read_only = ["job-1"; "job-2"].
Proof.
  repeat split; vm_compute; reflexivity.
Qed.

(** C3: the text [null] under a listed key passes [JSON.parse] and makes
    the sweep throw at [job.status], outside the [try]: the pending job
    listed after it is never read. *)
Lemma stored_null_aborts_sweep :
  fst stored_null_run
  = Throw (JsError "TypeError" "Cannot read properties of null (reading 'status')") /\
  trace (snd stored_null_run) = [Event KV_list None; Event (KV_get "job-1") None] /\
  records_parse null_then_pending /\
  kv (snd stored_null_run) !! "job-2" = Some (Serialized pending_job).
Proof.
  split; [vm_compute; reflexivity|]. split; [vm_compute; reflexivity|].
  split; [|vm_compute; reflexivity].
  intros key s. unfold null_then_pending. cbn [kv].
  destruct (decide (key = "job-2")) as [->|H2].
  - rewrite lookup_insert_eq. discriminate.
  - rewrite lookup_insert_ne by congruence.
    destruct (decide (key = "job-1")) as [->|H1].
    + rewrite lookup_singleton_eq. discriminate.
    + rewrite lookup_singleton_ne by congruence. discriminate.
Qed.

(** C4: when the queue store refuses the lock write of the job listed
    first, the sweep ends there: the record listed second, in progress
    under a lock that is 600001 ms old, is never read and keeps its status
    and its error. *)
Lemma refused_lock_leaves_stale_lock :
  listing queue_read_only = ["job-1"; "job-2"] /\
  kv pending_then_stale !! "job-2" = Some (Serialized stale_job) /\
  lock_expired (clock queue_read_only 1) stale_job = true /\
  fst refused_lock_before_stale_run = Throw (new_Error "KV PUT failed: 500") /\
  trace (snd refused_lock_before_stale_run)
  = [Event KV_list None;
     Event (KV_get "job-1") None;
     Event (KV_put "job-1"
              (Serialized (Job "Tokyo, Japan" five "in-progress" 1754733600000
                               (Some 1754733600002) None)))
           (Some (new_Error "KV PUT failed: 500"))] /\
  kv (snd refused_lock_before_stale_run) !! "job-2" = Some (Serialized stale_job).
Proof.
  repeat split; vm_compute; reflexivity.
Qed.

End Runs.

Section Witnesses.
Import Zod Queue Runtime Jobs Index ItinerarySpec SweepSpec Scenario.

Lemma sweep_skips_absent_record_witness :
  kv empty_world !! "job-1" = None /\
  process all_up 0 "job-1" empty_world
  = (Ret tt, log (Event (KV_get "job-1") None) empty_world) /\
  for_each_key all_up 0 ["job-1"; "job-2"] empty_world
  = for_each_key all_up 0 ["job-2"] (log (Event (KV_get "job-1") None) empty_world).
Proof.
  split; [reflexivity|].
  apply (sweep_skips_absent_record all_up 0 "job-1" ["job-2"] empty_world); reflexivity.
Defined.

Lemma all_up_queue_reliable : queue_reliable all_up.
Proof. intros n. split; [reflexivity|]. split; intros; reflexivity. Qed.

Lemma generator_down_queue_reliable : queue_reliable generator_down.
Proof. intros n. split; [reflexivity|]. split; intros; reflexivity. Qed.

Lemma one_stale_worker_written : worker_written one_stale.
Proof.
  intros key stored. unfold one_stale. cbn [kv].
  destruct (decide (key = "job-1")) as [->|Hne].
  - rewrite lookup_singleton_eq. intros [= <-]. eexists. reflexivity.
  - rewrite lookup_singleton_ne by congruence. discriminate.
Qed.

Lemma two_pending_worker_written : worker_written two_pending.
Proof.
  intros key stored. unfold two_pending. cbn [kv].
  destruct (decide (key = "job-2")) as [->|H2].
  - rewrite lookup_insert_eq. intros [= <-]. eexists. reflexivity.
  - rewrite lookup_insert_ne by congruence.
    destruct (decide (key = "job-1")) as [->|H1].
    + rewrite lookup_singleton_eq. intros [= <-]. eexists. reflexivity.
    + rewrite lookup_singleton_ne by congruence. discriminate.
Qed.

Lemma stale_lock_reset_before_processing_witness :
  let result := processPendingJobs all_up one_stale in
  600000 < clock all_up 1 - 1754733000000 /\
  fst result = Ret tt /\
  exists earlier later,
    trace (snd result)
    = trace one_stale ++ Event KV_list None :: earlier ++
      [Event (KV_get "job-1") None;
       Event (KV_put "job-1"
                (Serialized (Job "Tokyo, Japan" five "pending" 1754733600000
                                 (Some 1754733000000) None))) None;
       Event (KV_put "job-1"
                (Serialized (Job "Tokyo, Japan" five "in-progress" 1754733600000
                                 (Some (clock all_up (length (trace one_stale)
                                                      + length earlier + 3)))
                                 None))) None]
      ++ later /\
    forall f, ~ In (Event (KV_get "job-1") f) earlier.
Proof.
  intros result.
  assert (Hold : 600000 < clock all_up 1 - 1754733000000) by (vm_compute; reflexivity).
  split; [exact Hold|].
  assert (Hrec : kv one_stale !! "job-1" = Some (Serialized stale_job))
    by (vm_compute; reflexivity).
  assert (Hlisted : "job-1" ∈ listing all_up) by (cbn; apply elem_of_cons; left; reflexivity).
  exact (proj1 (stale_lock_reset_before_processing
                  all_up one_stale (fst result) (snd result) "job-1" stale_job
                  1754733000000 (surjective_pairing result) Hrec eq_refl eq_refl)
           Hold all_up_queue_reliable one_stale_worker_written Hlisted).
Defined.


Lemma failed_attempt_marks_document_failed_witness :
  let err := Js (new_Error "LLM request failed: HTTP 503") in
  let thrown := attempt generator_down "job-1" pending_job one_pending in
  thrown = (Throw err, snd thrown) /\ failure_message err <> "".
Proof.
  intros err thrown.
  assert (Hthrown : thrown = (Throw err, snd thrown)) by (vm_compute; reflexivity).
  split; [exact Hthrown|].
  pose (result := try_catch (attempt generator_down "job-1" pending_job)
                            (recover generator_down "job-1" pending_job) one_pending).
  exact (proj1 (failed_attempt_marks_document_failed
                  generator_down "job-1" pending_job one_pending err (snd thrown)
                  (fst result) (snd result) Hthrown (surjective_pairing result))).
Defined.

Lemma success_write_stores_validated_itinerary_witness :
  parse ItinerarySchema generated_itinerary = Ret validated_itinerary /\
  declared_fields_only validated_itinerary.
Proof.
  assert (Hparse : parse ItinerarySchema generated_itinerary = Ret validated_itinerary)
    by (vm_compute; reflexivity).
  split; [exact Hparse|].
  pose (result := attempt all_up "job-1" pending_job one_pending).
  exact (proj1 (success_write_stores_validated_itinerary
                  all_up "job-1" pending_job one_pending generated_itinerary
                  validated_itinerary (fst result) (snd result)
                  eq_refl Hparse (surjective_pairing result))).
Defined.

Lemma sweep_settles_every_listed_record_witness :
  queue_reliable generator_down /\ worker_written two_pending /\
  exists w',
    processPendingJobs generator_down two_pending = (Ret tt, w') /\
    forall key, key ∈ listing generator_down ->
      In (Event (KV_get key) None) (trace w') /\
      settled (clock generator_down (length (trace two_pending) + 1))
              (kv two_pending !! key) (kv w' !! key).
Proof.
  split; [exact generator_down_queue_reliable|].
  split; [exact two_pending_worker_written|].
  exact (sweep_settles_every_listed_record generator_down two_pending
           generator_down_queue_reliable two_pending_worker_written).
Defined.

End Witnesses.

(** ** The retry loop, round by round *)

Section RetryRounds.
Import Llm Retry.
Variable net : network.
Variable retries : Z.
Variables (baseDelay factor : float).

#[local] Abbreviation loop := (fetchWithRetry_loop net retries baseDelay factor).

(** One failed call with attempts left: a call, a sleep, the next round. *)
Lemma loop_round fuel attempt log :
  retried (fetch net attempt) = true ->
  Z.of_nat attempt < retries ->
  loop (S fuel) attempt log
  = loop fuel (S attempt)
      (log ++ [EvFetch; EvSleep (backoff_ms net baseDelay factor attempt)]).
Proof.
  intros Hretried Hleft. apply Z.leb_gt in Hleft.
  cbn [fetchWithRetry_loop]. unfold backoff_ms. rewrite <- app_assoc. cbn [app].
  destruct (fetch net attempt) as [res|err]; cbn [retried] in Hretried.
  - apply negb_true_iff in Hretried. rewrite Hretried, Hleft, orb_false_r.
    destruct (negb _); reflexivity.
  - apply negb_true_iff in Hretried. rewrite Hretried, Hleft. reflexivity.
Qed.

Lemma rounds_S first k :
  rounds net baseDelay factor first (S k)
  = [EvFetch; EvSleep (backoff_ms net baseDelay factor first)]
    ++ rounds net baseDelay factor (S first) k.
Proof. reflexivity. Qed.

(** [k] failed calls in a row, all with attempts left. *)
Lemma loop_rounds k : forall fuel attempt log,
  (forall j, (attempt <= j < attempt + k)%nat -> retried (fetch net j) = true) ->
  Z.of_nat (attempt + k) <= retries ->
  loop (k + fuel) attempt log
  = loop fuel (attempt + k)%nat (log ++ rounds net baseDelay factor attempt k).
Proof.
  induction k as [|k IH]; intros fuel attempt log Hfail Hleft.
  - cbn. rewrite Nat.add_0_r, app_nil_r. reflexivity.
  - cbn [Nat.add]. rewrite loop_round by (first [apply Hfail | idtac]; lia).
    rewrite IH by (first [intros j Hj; apply Hfail | idtac]; lia).
    rewrite rounds_S, <- app_assoc. f_equal. lia.
Qed.

Lemma fetches_rounds first k :
  fetches (rounds net baseDelay factor first k ++ [EvFetch]) = S k /\
  sleeps (rounds net baseDelay factor first k ++ [EvFetch]) = k.
Proof.
  revert first. induction k as [|k IH]; intros first; [split; reflexivity|].
  destruct (IH (S first)) as [Hf Hs]. rewrite rounds_S, <- app_assoc.
  unfold fetches, sleeps in *. cbn. rewrite Hf, Hs. split; reflexivity.
Qed.

(** The fuel of [fetchWithRetry] covers [k] rounds and one more call. *)
Lemma enough_fuel k :
  Z.of_nat k <= retries ->
  S (Z.to_nat retries) = (k + S (Z.to_nat retries - k))%nat.
Proof. lia. Qed.

(** X1: when the first [k] calls fail with attempts left and call [k] gets an
    ok response, that response is returned after exactly [k] backoff
    sleeps and [k + 1] calls. *)
Theorem fetchWithRetry_returns_first_ok_response k res :
  (forall j, (j < k)%nat -> retried (fetch net j) = true) ->
  Z.of_nat k <= retries ->
  fetch net k = Responded res ->
  ok res = true ->
  let log := rounds net baseDelay factor 0 k ++ [EvFetch] in
  fetchWithRetry net retries baseDelay factor = Some (Ret res, log) /\
  fetches log = S k /\ sleeps log = k.
Proof.
  intros Hfail Hleft Hcall Hok log. split; [|apply fetches_rounds].
  unfold fetchWithRetry. rewrite (enough_fuel k Hleft).
  rewrite loop_rounds by (first [intros j Hj; apply Hfail | idtac]; lia).
  cbn [fetchWithRetry_loop Nat.add app]. rewrite Hcall, Hok. reflexivity.
Qed.

(** X2: when the first [k] calls fail with attempts left and call [k] is
    rejected with an [AbortError], the loop stops there with the timeout
    error: no further call, no further sleep. *)
Theorem fetchWithRetry_abort_ends_retries k err :
  (forall j, (j < k)%nat -> retried (fetch net j) = true) ->
  Z.of_nat k <= retries ->
  fetch net k = Rejected err ->
  err_name err = "AbortError" ->
  let log := rounds net baseDelay factor 0 k ++ [EvFetch] in
  fetchWithRetry net retries baseDelay factor
  = Some (Throw (new_Error "LLM request aborted by timeout"), log) /\
  fetches log = S k /\ sleeps log = k.
Proof.
  intros Hfail Hleft Hcall Habort log. split; [|apply fetches_rounds].
  unfold fetchWithRetry. rewrite (enough_fuel k Hleft).
  rewrite loop_rounds by (first [intros j Hj; apply Hfail | idtac]; lia).
  cbn [fetchWithRetry_loop Nat.add app]. rewrite Hcall, Habort. reflexivity.
Qed.

(** X3: when every call fails, the loop gives up at call number [retries]
    with the error of that call: the HTTP status for a response, the
    rejection itself for a network error. *)
Theorem fetchWithRetry_exhausted_reports_last_failure :
  0 <= retries ->
  (forall j, (j <= Z.to_nat retries)%nat -> retried (fetch net j) = true) ->
  let k := Z.to_nat retries in
  let log := rounds net baseDelay factor 0 k ++ [EvFetch] in
  fetchWithRetry net retries baseDelay factor
  = Some (Throw (final_error (fetch net k)), log) /\
  fetches log = S k /\ sleeps log = k.
Proof.
  intros Hpos Hfail k log. split; [|apply fetches_rounds].
  assert (Hleft : Z.of_nat k <= retries) by (unfold k; lia).
  unfold fetchWithRetry. rewrite (enough_fuel k Hleft).
  rewrite loop_rounds by (first [intros j Hj; apply Hfail; unfold k in *| idtac]; lia).
  cbn [fetchWithRetry_loop Nat.add app].
  assert (Hout : (retries <=? Z.of_nat k) = true) by (apply Z.leb_le; unfold k; lia).
  specialize (Hfail k ltac:(unfold k; lia)).
  destruct (fetch net k) as [res|err]; cbn [retried final_error] in *.
  - apply negb_true_iff in Hfail. rewrite Hfail, Hout, orb_true_r. reflexivity.
  - apply negb_true_iff in Hfail. rewrite Hfail, Hout. reflexivity.
Qed.

(** Whatever the endpoint does, a run is some rounds of call and sleep
    followed by one last call. *)
Lemma loop_shape fuel : forall attempt log,
  (0 < fuel)%nat -> (Z.to_nat retries < attempt + fuel)%nat ->
  exists k r,
    fetchWithRetry_loop net retries baseDelay factor fuel attempt log
    = Some (r, log ++ rounds net baseDelay factor attempt k ++ [EvFetch]) /\
    (k = 0%nat \/ Z.of_nat (attempt + k) <= retries).
Proof.
  induction fuel as [|fuel IH]; intros attempt log Hpos Hfuel; [lia|].
  destruct (retried (fetch net attempt) && (Z.of_nat attempt <? retries)) eqn:Hgo.
  - apply andb_true_iff in Hgo as [Hretried Hleft]. apply Z.ltb_lt in Hleft.
    rewrite loop_round by assumption.
    destruct (IH (S attempt) (log ++ [EvFetch; EvSleep (backoff_ms net baseDelay factor attempt)])
                ltac:(lia) ltac:(lia)) as (k & r & Hrun & Hk).
    exists (S k), r. rewrite Hrun, rounds_S, <- !app_assoc. split; [reflexivity|].
    right. destruct Hk as [->|Hk]; lia.
  - exists 0%nat. cbn [fetchWithRetry_loop rounds seq flat_map app].
    apply andb_false_iff in Hgo.
    destruct (fetch net attempt) as [res|err]; cbn [retried] in Hgo.
    + destruct (ok res) eqn:Hok; [eexists; split; [reflexivity|left; reflexivity]|].
      destruct Hgo as [Hgo|Hgo]; [discriminate|]. apply Z.ltb_ge in Hgo.
      apply Z.leb_le in Hgo. rewrite Hgo, orb_true_r.
      eexists; split; [reflexivity|left; reflexivity].
    + destruct (String.eqb (err_name err) "AbortError") eqn:Habort;
        [eexists; split; [reflexivity|left; reflexivity]|].
      destruct Hgo as [Hgo|Hgo]; [discriminate|]. apply Z.ltb_ge in Hgo.
      apply Z.leb_le in Hgo. rewrite Hgo.
      eexists; split; [reflexivity|left; reflexivity].
Qed.

(** X4: whatever the endpoint answers, [fetchWithRetry] ends, after at most
    [retries + 1] calls, and it sleeps exactly once between two calls. *)
Theorem fetchWithRetry_bounded :
  exists r log,
    fetchWithRetry net retries baseDelay factor = Some (r, log) /\
    (fetches log <= S (Z.to_nat retries))%nat /\
    S (sleeps log) = fetches log.
Proof.
  destruct (loop_shape (S (Z.to_nat retries)) 0 [] ltac:(lia) ltac:(lia))
    as (k & r & Hrun & Hk).
  exists r, (rounds net baseDelay factor 0 k ++ [EvFetch]).
  split; [exact Hrun|]. destruct (fetches_rounds 0 k) as [-> ->].
  split; [|reflexivity]. destruct Hk as [->|Hk]; lia.
Qed.

End RetryRounds.

(** ** What extractFirstJsonArray returns *)

Section ExtractedSpan.
Import Llm.

Lemma scan_index rest : forall i d k,
  scan rest i d = Some k ->
  exists n, k = (i + n)%nat /\ rest !! n = Some close_bracket.
Proof.
  induction rest as [|c rest IH]; intros i d k; cbn [scan]; [discriminate|].
  assert (Hnext : forall d', scan rest (S i) d' = Some k ->
            exists n, k = (i + n)%nat /\ (c :: rest) !! n = Some close_bracket).
  { intros d' Hs. destruct (IH _ _ _ Hs) as (n & -> & Hn).
    exists (S n). split; [lia|exact Hn]. }
  destruct (Ascii.eqb c open_bracket); [apply Hnext|].
  destruct (Ascii.eqb c close_bracket) eqn:Hc; [|apply Hnext].
  destruct (d - 1 =? 0); [|apply Hnext].
  intros [= <-]. exists 0%nat. apply Ascii.eqb_eq in Hc. subst c.
  split; [lia|reflexivity].
Qed.

(** The loop reads nothing beyond the index at which it returns. *)
Lemma scan_take rest : forall i i' d n,
  scan rest i d = Some (i + n)%nat ->
  scan (take (S n) rest) i' d = Some (i' + n)%nat.
Proof.
  induction rest as [|c rest IH]; intros i i' d n; cbn [scan]; [discriminate|].
  assert (Hnext : forall d', scan rest (S i) d' = Some (i + n)%nat ->
            exists m, n = S m /\ scan (take (S m) rest) (S i') d' = Some (i' + n)%nat).
  { intros d' Hs. destruct (scan_index _ _ _ _ Hs) as (m & Hm & _).
    exists (n - 1)%nat. split; [lia|].
    replace (i' + n)%nat with (S i' + (n - 1))%nat by lia.
    apply (IH (S i)). rewrite Hs. f_equal. lia. }
  destruct (Ascii.eqb c open_bracket) eqn:Ho.
  - intros Hs. destruct (Hnext _ Hs) as (m & -> & Hm).
    cbn [take scan]. rewrite Ho. exact Hm.
  - destruct (Ascii.eqb c close_bracket) eqn:Hc.
    + destruct (d - 1 =? 0) eqn:Hz.
      * intros [= Hn]. assert (n = 0%nat) as -> by lia.
        cbn [take scan]. rewrite Ho, Hc, Hz. f_equal. lia.
      * intros Hs. destruct (Hnext _ Hs) as (m & -> & Hm).
        cbn [take scan]. rewrite Ho, Hc, Hz. exact Hm.
    + intros Hs. destruct (Hnext _ Hs) as (m & -> & Hm).
      cbn [take scan]. rewrite Ho, Hc. exact Hm.
Qed.

(** Where the returned span sits in the scanned text. *)
Lemma extracted_units str t :
  extractFirstJsonArray_units str = Ret t ->
  exists start rest n,
    indexOf open_bracket str = Some start /\
    drop start str = open_bracket :: rest /\
    scan rest (S start) 1 = Some (S start + n)%nat /\
    (n < length rest)%nat /\
    rest !! n = Some close_bracket /\
    1 + depth_of (take (S n) rest) = 0 /\
    t = open_bracket :: take (S n) rest.
Proof.
  unfold extractFirstJsonArray_units.
  destruct (indexOf open_bracket str) as [start|] eqn:Hstart; [|discriminate].
  destruct (indexOf_Some _ _ _ Hstart) as [Hat _].
  destruct (drop_at_open _ _ Hat) as (rest & Hdrop & Hlen).
  rewrite Hdrop. cbn [scan]. rewrite Ascii.eqb_refl. change (0 + 1) with 1.
  destruct (scan rest (S start) 1) as [k|] eqn:Hscan; [|discriminate].
  intros [= <-].
  pose proof (scan_positive rest (S start) 1 ltac:(lia)) as Hpos. rewrite Hscan in Hpos.
  destruct Hpos as (n & -> & Hn & Hzero & _).
  destruct (scan_index _ _ _ _ Hscan) as (n' & Hn' & Hclose).
  assert (n' = n) as -> by lia.
  exists start, rest, n. repeat split; try assumption.
  unfold slice. rewrite Hdrop.
  replace (S start + n + 1 - start)%nat with (S (S n)) by lia. reflexivity.
Qed.

(** X6: a returned span starts with ['['], ends with [']'], is balanced, and
    sits in the text after a prefix that holds no ['[']. *)
Theorem extractFirstJsonArray_returns_bracketed_span (str t : string) :
  extractFirstJsonArray str = Ret t ->
  exists before inner after,
    list_ascii_of_string str = before ++ list_ascii_of_string t ++ after /\
    list_ascii_of_string t = open_bracket :: inner ++ [close_bracket] /\
    (forall c, In c before -> c <> open_bracket) /\
    depth_of (list_ascii_of_string t) = 0.
Proof.
  unfold extractFirstJsonArray.
  destruct (extractFirstJsonArray_units (list_ascii_of_string str)) as [l|] eqn:Hunits;
    [|discriminate].
  intros [= <-]. rewrite list_ascii_of_string_of_list_ascii.
  destruct (extracted_units _ _ Hunits)
    as (start & rest & n & Hstart & Hdrop & _ & Hn & Hclose & Hzero & ->).
  exists (take start (list_ascii_of_string str)), (take n rest), (drop (S n) rest).
  split; [|split; [|split]].
  - rewrite <- (take_drop start (list_ascii_of_string str)) at 1.
    rewrite Hdrop. cbn [app]. rewrite take_drop. reflexivity.
  - rewrite (take_S_r rest n close_bracket Hclose). reflexivity.
  - intros c Hin Heq. subst c. apply list_elem_of_In, list_elem_of_lookup in Hin.
    destruct Hin as [j Hj]. apply lookup_take_Some in Hj as [Hj Hlt].
    exact (proj2 (indexOf_Some _ _ _ Hstart) j Hlt Hj).
  - cbn [depth_of delta]. unfold delta. cbn. exact Hzero.
Qed.

(** X7: extraction is idempotent: a returned span is its own first array. *)
Theorem extractFirstJsonArray_idempotent (str t : string) :
  extractFirstJsonArray str = Ret t ->
  extractFirstJsonArray t = Ret t.
Proof.
  unfold extractFirstJsonArray.
  destruct (extractFirstJsonArray_units (list_ascii_of_string str)) as [l|] eqn:Hunits;
    [|discriminate].
  intros [= <-]. rewrite list_ascii_of_string_of_list_ascii.
  destruct (extracted_units _ _ Hunits)
    as (start & rest & n & _ & _ & Hscan & Hn & _ & _ & ->).
  unfold extractFirstJsonArray_units. cbn [indexOf]. rewrite Ascii.eqb_refl.
  cbn [drop scan]. rewrite Ascii.eqb_refl. change (0 + 1) with 1.
  rewrite (scan_take rest (S start) 1 1 n Hscan).
  unfold slice. cbn [drop]. replace (1 + n + 1 - 0)%nat with (S (S n)) by lia.
  cbn [take]. rewrite take_take. replace (S n `min` S n)%nat with (S n) by lia.
  reflexivity.
Qed.

End ExtractedSpan.

(** ** jobs.js: further properties of the sweep *)

Section SweepInvariants.
Import Zod Queue Runtime Jobs SweepSpec Documents.
Variable env : environment.

(** Symbolic execution, as for the properties above. *)
Ltac exec :=
  cbv beta iota zeta delta
    [process attempt recover saveItinerary send_patch
     JOBS_KV_get JOBS_KV_put JOBS_KV_delete JOBS_KV_list
     runWithTimeout_generateItinerary map_error try_catch
     bind ret throw call Date_now log set_error set_status set_lockedAt];
  cbn [kv docs trace fst snd
       Queue.status Queue.lockedAt Queue.destination Queue.durationDays
       Queue.createdAt Queue.error
       String.eqb Ascii.eqb Bool.eqb negb andb orb].

Ltac stuck_on t :=
  lazymatch t with
  | match ?x with _ => _ end => stuck_on x
  | (match ?x with _ => _ end) _ => stuck_on x
  | _ => t
  end.

Ltac branch :=
  lazymatch goal with
  | |- ?lhs = _ -> _ =>
      lazymatch lhs with
      | match _ with _ => _ end => let x := stuck_on lhs in destruct x eqn:?
      | (match _ with _ => _ end) _ => let x := stuck_on lhs in destruct x eqn:?
      end
  end.

Ltac all_runs := exec; repeat (branch; exec).

Ltac events_of Htr evs :=
  cbn [trace] in Htr; rewrite <- ?app_assoc in Htr;
  apply app_inv_head in Htr; cbn [app] in Htr; subst evs.

Ltac cuts H earlier :=
  repeat (destruct earlier as [|? earlier]; cbn [app] in H;
          [ try discriminate H
          | first [ discriminate H | injection H as <- H ] ]).

(** *** Records that are not eligible *)

(** X10: a record that is neither pending nor in progress under an expired
    lock, a failed one in particular, is read and left alone: no write, no
    generation, no error, and the loop goes on. *)
Theorem sweep_leaves_settled_record_alone now jobId job rest w :
  kv w !! jobId = Some (Serialized job) ->
  eligible now (Some (Serialized job)) = false ->
  fault env (length (trace w)) (KV_get jobId) = None ->
  process env now jobId w = (Ret tt, log (Event (KV_get jobId) None) w) /\
  for_each_key env now (jobId :: rest) w
  = for_each_key env now rest (log (Event (KV_get jobId) None) w).
Proof.
  intros Hrec Hnot Hread.
  assert (Hp : process env now jobId w = (Ret tt, log (Event (KV_get jobId) None) w)).
  { apply process_skips; [rewrite Hrec; exact Hnot| | |exact Hread].
    - rewrite Hrec. discriminate.
    - intros s Hs. rewrite Hrec in Hs. discriminate. }
  split; [exact Hp|]. cbn [for_each_key]. unfold bind at 1. rewrite Hp. reflexivity.
Qed.

(** X11: once an eligible record has been processed with a working queue
    store, processing the same key again, at whatever time, only reads
    it. *)
Theorem processed_record_is_not_processed_again now now' jobId w r w1 :
  queue_reliable env -> records_parse w ->
  eligible now (kv w !! jobId) = true ->
  process env now jobId w = (r, w1) ->
  process env now' jobId w1 = (Ret tt, log (Event (KV_get jobId) None) w1).
Proof.
  intros Hrel Hparse Hfirst Hrun.
  assert (Hnull : kv w !! jobId <> Some Null).
  { intros Hstored. rewrite Hstored in Hfirst. discriminate. }
  destruct (process_settles env now jobId w r w1 Hrel Hnull (Hparse jobId) Hrun)
    as (_ & Hsettled & _).
  unfold settled in Hsettled. rewrite Hfirst in Hsettled.
  apply process_skips.
  - destruct Hsettled as [->|Hfailed]; [reflexivity|].
    exact (marked_failed_not_eligible now' _ Hfailed).
  - destruct Hsettled as [->|(job & message & -> & _)]; discriminate.
  - intros s Hs.
    destruct Hsettled as [Hgone|(job & message & Hjob & _)];
      [rewrite Hgone in Hs|rewrite Hjob in Hs]; discriminate.
  - exact (proj1 (proj2 (Hrel _)) jobId).
Qed.

(** *** Generation happens under a lock *)

(** X12: in one run of a job, the generation client is called at most once,
    right after the write that locked the record, and with the
    destination and duration of the locked record. *)
Theorem generation_only_under_lock now jobId w r w' evs :
  process env now jobId w = (r, w') ->
  trace w' = trace w ++ evs ->
  forall earlier later destination durationDays f,
    evs = earlier ++ Event (generate destination durationDays) f :: later ->
    (exists job lockedAt,
        last earlier = Some (Event (KV_put jobId (Serialized job)) None) /\
        Queue.status job = "in-progress" /\
        Queue.lockedAt job = Some lockedAt /\
        Queue.destination job = destination /\
        Queue.durationDays job = durationDays) /\
    forall destination' durationDays' f',
      ~ In (Event (generate destination' durationDays') f') later.
Proof.
  destruct w as [kv0 docs0 tr0].
  all_runs; intros [= <- <-] Htr; events_of Htr evs.
  all: intros earlier later destination durationDays f Hcut; cuts Hcut earlier.
  all: injection Hcut as <- <- <- <-.
  all: split;
    [ eexists _, _; repeat split
    | intros d' n' f' Hin; cbn [In] in Hin;
      repeat (destruct Hin as [Hin|Hin]; try discriminate Hin); exact Hin ].
Qed.

(** *** What a run never touches *)

Lemma for_each_key_frame now keys : forall w r w',
  for_each_key env now keys w = (r, w') ->
  (forall key, key ∉ keys ->
     kv w' !! key = kv w !! key /\ docs w' !! key = docs w !! key) /\
  (forall key name, ~ In name saved_fields -> field w' key name = field w key name).
Proof.
  induction keys as [|jobId rest IH]; intros w r w'.
  - cbn. intros [= <- <-]. split; [intros; split|intros]; reflexivity.
  - cbn [for_each_key]. unfold bind.
    destruct (process env now jobId w) as [[[]|e] w1] eqn:Hp.
    + intros Hrest. destruct (process_frame _ _ _ _ _ _ Hp) as [Hother Hfields].
      destruct (IH _ _ _ Hrest) as [Hout Hkeep]. split.
      * intros key Hkey. apply not_elem_of_cons in Hkey as [Hne Hkey].
        destruct (Hout key Hkey) as [-> ->]. exact (Hother key Hne).
      * intros key name Hname. rewrite (Hkeep key name Hname).
        destruct (decide (key = jobId)) as [->|Hne]; [exact (Hfields name Hname)|].
        unfold field. rewrite (proj2 (Hother key Hne)). reflexivity.
    + intros [= <- <-]. destruct (process_frame _ _ _ _ _ _ Hp) as [Hother Hfields]. split.
      * intros key Hkey. apply not_elem_of_cons in Hkey as [Hne _].
        exact (Hother key Hne).
      * intros key name Hname.
        destruct (decide (key = jobId)) as [->|Hne]; [exact (Hfields name Hname)|].
        unfold field. rewrite (proj2 (Hother key Hne)). reflexivity.
Qed.

Lemma processPendingJobs_frame w r w' :
  processPendingJobs env w = (r, w') ->
  (forall key, key ∉ listing env ->
     kv w' !! key = kv w !! key /\ docs w' !! key = docs w !! key) /\
  (forall key name, ~ In name saved_fields -> field w' key name = field w key name).
Proof.
  unfold processPendingJobs, JOBS_KV_list, bind, call, ret, Date_now.
  destruct (fault env (length (trace w)) KV_list) as [e|].
  - intros [= <- <-]. split; [intros; split|intros]; reflexivity.
  - intros Hrun. exact (for_each_key_frame _ _ _ _ _ Hrun).
Qed.

(** X13: whatever fails, a sweep changes no queue record and no document of a
    key the queue store did not list. *)
Theorem sweep_touches_listed_keys_only w r w' :
  processPendingJobs env w = (r, w') ->
  forall key, key ∉ listing env ->
    kv w' !! key = kv w !! key /\ docs w' !! key = docs w !! key.
Proof. intros Hrun. exact (proj1 (processPendingJobs_frame _ _ _ Hrun)). Qed.

(** X14: whatever fails, a sweep leaves the fields of every document that
    [saveItinerary] does not write (destination, durationDays and
    createdAt among them) as they were. *)
Theorem sweep_keeps_request_fields w r w' :
  processPendingJobs env w = (r, w') ->
  forall key name, ~ In name saved_fields -> field w' key name = field w key name.
Proof. intros Hrun. exact (proj2 (processPendingJobs_frame _ _ _ Hrun)). Qed.

(** *** The catch block *)

(** X15: the [catch] block ends with one write of the queue record, marked
    failed.  Its error is the failure message when the durable write went
    through, and the message followed by the durable write's own error
    when it did not; the block throws only if that last write fails.  The
    itinerary field of the document is left as it was. *)
Theorem failure_is_recorded_in_queue jobId job err w r w' :
  recover env jobId job err w = (r, w') ->
  exists earlier message f,
    trace w'
    = trace w ++ earlier ++
      [Event (KV_put jobId
                (Serialized (Job (destination job) (durationDays job) "failed"
                                 (createdAt job) (lockedAt job) (Some message)))) f] /\
    ((message = failure_message err /\
      exists req, last earlier = Some (Event (firestore_patch jobId req) None)) \/
     (exists o e,
         last earlier = Some (Event o (Some e)) /\
         message = failure_message err +:+ " | persistError: " +:+ persist_note e)) /\
    match f with
    | None =>
        r = Ret tt /\
        kv w' !! jobId
        = Some (Serialized (Job (destination job) (durationDays job) "failed"
                                (createdAt job) (lockedAt job) (Some message)))
    | Some e => r = Throw e /\ kv w' = kv w
    end /\
    field w' jobId "itinerary" = field w jobId "itinerary".
Proof.
  destruct w as [kv0 docs0 tr0].
  all_runs; intros [= <- <-]; cbn [trace kv docs]; rewrite <- ?app_assoc; cbn [app].
  all: first [ eexists [_], _, _; split; [reflexivity|]
             | eexists [_; _], _, _; split; [reflexivity|] ].
  all: split;
    [ first [ left; split; [reflexivity|eexists; reflexivity]
            | right; eexists _, _; split; reflexivity ]
    | split;
      [ cbn [kv]; rewrite ?lookup_insert_eq; split; reflexivity
      | unfold field; cbn [docs];
        rewrite ?lookup_insert_eq; cbn [default from_option id];
        rewrite ?saveItinerary_request_itinerary; reflexivity ] ].
Qed.

End SweepInvariants.

(** ** index.js: an accepted submission *)

Section AcceptedSubmission.
Import Queue Runtime Index SweepSpec.
Variable env : environment.

(** X16: a submission answered with 202 has awaited one call, the write of
    the queue record, which succeeded: the record is pending under the
    returned job id, carries the request's destination, its duration as
    [JSON.stringify] writes it and the creation time, and is eligible for
    any sweep.  Before the answer the two background tasks have been
    started, the document creation first, each up to its first call; they
    are given the request's own values.  No document has been touched. *)
Theorem accepted_submission_is_queued_before_the_answer payload w resp tasks w' :
  post env (JsonBody payload) w = (Ret (resp, tasks), w') ->
  Index.status resp = 202 ->
  let jobId := randomUUID env (length (trace w)) in
  let createdAt := clock env (length (trace w)) in
  exists destination durationDays,
    payload_fields payload = Some (destination, durationDays) /\
    resp = HttpResponse 202 jobId /\
    let record :=
      Serialized (Job destination (JSON_number durationDays) "pending" createdAt
                      None None) in
    trace w'
    = trace w ++
      [Event (KV_put jobId record) None; Issued getAccessToken; Issued KV_list] /\
    kv w' = <[jobId := record]> (kv w) /\
    docs w' = docs w /\
    tasks = [CreateItineraryDoc jobId destination durationDays createdAt;
             ProcessPendingJobs] /\
    forall now, eligible now (kv w' !! jobId) = true.
Proof.
  intros Hpost Hstatus jobId createdAt. subst jobId createdAt. revert Hpost.
  destruct w as [kv0 docs0 tr0]. cbn [post trace].
  destruct payload as [| | | | |props]; cbn [destructure];
    try (intros [= <- <- <-]; discriminate Hstatus); try discriminate.
  unfold payload_fields.
  destruct (get_prop "destination" props) as [[| | |destination| |]|];
    try (intros [= <- <- <-]; discriminate Hstatus).
  destruct (get_prop "durationDays" props) as [[| |durationDays| | |]|];
    try (intros [= <- <- <-]; discriminate Hstatus).
  cbv beta iota zeta delta [bind JOBS_KV_put call Date_now ret log start].
  cbn [trace kv docs].
  match goal with
  | |- context [fault env ?n ?o] => destruct (fault env n o) as [e|]
  end; [discriminate|].
  intros [= <- <- <-]. exists destination, durationDays. cbn [kv docs trace].
  rewrite <- !app_assoc. cbn [app].
  repeat split. intros now. rewrite lookup_insert_eq. reflexivity.
Qed.

End AcceptedSubmission.

(** ** Concrete runs of the further properties *)

Section FurtherRuns.
Import Llm Retry Zod Queue Runtime Jobs Index SweepSpec Documents Scenario Cases.

(** X1, on a concrete run. *)
Lemma fetchWithRetry_returns_first_ok_response_witness :
  fetchWithRetry recovering 3 500 2
  = Some (Ret (Response 200 (Ret (Some "[]"))),
          [EvFetch; EvSleep 750; EvFetch; EvSleep 1250; EvFetch]).
Proof.
  refine (proj1 (fetchWithRetry_returns_first_ok_response
                   recovering 3 500 2 2 (Response 200 (Ret (Some "[]")))
                   _ _ eq_refl eq_refl)).
  - intros [|[|j]] Hj; try reflexivity. lia.
  - lia.
Defined.

(** X2, on a concrete run. *)
Lemma fetchWithRetry_abort_ends_retries_witness :
  fetchWithRetry timed_out 3 500 2
  = Some (Throw (new_Error "LLM request aborted by timeout"),
          [EvFetch; EvSleep 750; EvFetch]).
Proof.
  refine (proj1 (fetchWithRetry_abort_ends_retries
                   timed_out 3 500 2 1
                   (JsError "AbortError" "The operation was aborted")
                   _ _ eq_refl eq_refl)).
  - intros [|j] Hj; try reflexivity. lia.
  - lia.
Defined.

(** X3, on a concrete run. *)
Lemma fetchWithRetry_exhausted_reports_last_failure_witness :
  fetchWithRetry not_found 3 500 2
  = Some (Throw (new_Error "LLM request failed: HTTP 404"),
          [EvFetch; EvSleep 750; EvFetch; EvSleep 1250; EvFetch; EvSleep 2250; EvFetch]).
Proof.
  refine (proj1 (fetchWithRetry_exhausted_reports_last_failure
                   not_found 3 500 2 _ _)).
  - lia.
  - intros j _. reflexivity.
Defined.

(** The sleep is computed in doubles: the product of the double next to
    0.35 and 100 rounds to 35, so the first backoff is 135 ms. *)
Lemma backoff_rounds_as_doubles :
  backoff_ms rounding 100 2 0 = 135%float /\
  fetchWithRetry rounding 3 100 2
  = Some (Ret (Response 200 (Ret (Some "[]"))), [EvFetch; EvSleep 135; EvFetch]).
Proof. split; reflexivity. Qed.

(** X6, on a concrete run. *)
Lemma extractFirstJsonArray_returns_bracketed_span_witness :
  extractFirstJsonArray "a[[]]b" = Ret "[[]]" /\
  exists before inner after,
    list_ascii_of_string "a[[]]b" = before ++ list_ascii_of_string "[[]]" ++ after /\
    list_ascii_of_string "[[]]" = open_bracket :: inner ++ [close_bracket] /\
    (forall c, In c before -> c <> open_bracket) /\
    depth_of (list_ascii_of_string "[[]]") = 0.
Proof.
  split; [reflexivity|].
  exact (extractFirstJsonArray_returns_bracketed_span "a[[]]b" "[[]]" eq_refl).
Defined.

(** X7, on a concrete run. *)
Lemma extractFirstJsonArray_idempotent_witness :
  extractFirstJsonArray "a[[]]b" = Ret "[[]]" /\
  extractFirstJsonArray "[[]]" = Ret "[[]]".
Proof.
  split; [reflexivity|].
  exact (extractFirstJsonArray_idempotent "a[[]]b" "[[]]" eq_refl).
Defined.

(** X9, on a concrete run. *)
Lemma createItineraryDoc_overwrites_or_leaves_witness :
  let result := createItineraryDoc all_up "job-1" "Tokyo, Japan" five_days 1754733600000
                                   empty_world in
  fst result = Ret tt /\
  kv (snd result) = kv empty_world /\
  field (snd result) "job-1" "status" = Some (Firestore.stringValue "processing") /\
  field (snd result) "job-1" "destination" = Some (Firestore.stringValue "Tokyo, Japan") /\
  field (snd result) "job-1" "durationDays" = Some (Firestore.integerValue five_days) /\
  field (snd result) "job-1" "updatedAt" = None.
Proof.
  intros result.
  assert (Hrun : createItineraryDoc all_up "job-1" "Tokyo, Japan" five_days 1754733600000
                                    empty_world = (Ret tt, snd result))
    by (vm_compute; reflexivity).
  destruct (createItineraryDoc_overwrites_or_leaves
              all_up "job-1" "Tokyo, Japan" five_days 1754733600000 empty_world
              (Ret tt) (snd result) Hrun)
    as (Hkv & _ & _ & _ & Hstatus & Hdestination & Hdays & _ & _ & _ & _ & Hother).
  split; [vm_compute; reflexivity|]. split; [exact Hkv|].
  split; [exact Hstatus|]. split; [exact Hdestination|]. split; [exact Hdays|].
  apply Hother. cbn. intros Hin.
  repeat (destruct Hin as [Hin|Hin]; [discriminate Hin|]). exact Hin.
Defined.

(** X10, on a concrete run. *)
Lemma sweep_leaves_settled_record_alone_witness :
  process all_up 0 "job-1" one_failed
  = (Ret tt, log (Event (KV_get "job-1") None) one_failed) /\
  for_each_key all_up 0 ["job-1"; "job-2"] one_failed
  = for_each_key all_up 0 ["job-2"] (log (Event (KV_get "job-1") None) one_failed).
Proof.
  assert (Hrec : kv one_failed !! "job-1" = Some (Serialized failed_job))
    by (vm_compute; reflexivity).
  exact (sweep_leaves_settled_record_alone all_up 0 "job-1" failed_job ["job-2"]
           one_failed Hrec eq_refl eq_refl).
Defined.

Lemma one_pending_records_parse : records_parse one_pending.
Proof.
  intros key s. unfold one_pending. cbn [kv].
  destruct (decide (key = "job-1")) as [->|Hne].
  - rewrite lookup_singleton_eq. discriminate.
  - rewrite lookup_singleton_ne by congruence. discriminate.
Qed.

(** X11, on a concrete run. *)
Lemma processed_record_is_not_processed_again_witness :
  let w1 := snd (process generator_down 0 "job-1" one_pending) in
  eligible 0 (kv one_pending !! "job-1") = true /\
  process generator_down stale_now "job-1" w1
  = (Ret tt, log (Event (KV_get "job-1") None) w1).
Proof.
  intros w1.
  assert (Hfirst : eligible 0 (kv one_pending !! "job-1") = true)
    by (vm_compute; reflexivity).
  split; [exact Hfirst|].
  exact (processed_record_is_not_processed_again
           generator_down 0 stale_now "job-1" one_pending
           (fst (process generator_down 0 "job-1" one_pending)) w1
           generator_down_queue_reliable one_pending_records_parse Hfirst
           (surjective_pairing _)).
Defined.

(** X12, on a concrete run. *)
Lemma generation_only_under_lock_witness :
  let result := process generator_down 0 "job-1" one_pending in
  exists earlier later f,
    trace (snd result)
    = earlier ++ Event (generate "Tokyo, Japan" five) f :: later /\
    exists job lockedAt,
      last earlier = Some (Event (KV_put "job-1" (Serialized job)) None) /\
      Queue.status job = "in-progress" /\
      Queue.lockedAt job = Some lockedAt /\
      Queue.destination job = "Tokyo, Japan" /\
      Queue.durationDays job = five.
Proof.
  intros result.
  eexists [_; _], _, _.
  assert (Hcut : trace (snd result)
                 = [Event (KV_get "job-1") None;
                    Event (KV_put "job-1"
                             (Serialized (Job "Tokyo, Japan" five "in-progress"
                                              1754733600000 (Some 1754733600001) None)))
                          None]
                   ++ Event (generate "Tokyo, Japan" five)
                            (Some (new_Error "LLM request failed: HTTP 503"))
                   :: skipn 3 (trace (snd result)))
    by (vm_compute; reflexivity).
  split; [exact Hcut|].
  exact (proj1 (generation_only_under_lock
                  generator_down 0 "job-1" one_pending (fst result) (snd result)
                  (trace (snd result)) (surjective_pairing result) eq_refl
                  _ _ _ _ _ Hcut)).
Defined.

(** X13, on a concrete run. *)
Lemma sweep_touches_listed_keys_only_witness :
  let result := processPendingJobs generator_down two_pending in
  ("job-9" ∉ listing generator_down) /\
  kv (snd result) !! "job-9" = kv two_pending !! "job-9" /\
  docs (snd result) !! "job-9" = docs two_pending !! "job-9".
Proof.
  intros result.
  assert (Hout : "job-9" ∉ listing generator_down).
  { cbn. intros Hin. apply elem_of_cons in Hin as [Hin|Hin]; [discriminate|].
    apply elem_of_cons in Hin as [Hin|Hin]; [discriminate|]. inversion Hin. }
  split; [exact Hout|].
  exact (sweep_touches_listed_keys_only
           generator_down two_pending (fst result) (snd result)
           (surjective_pairing result) "job-9" Hout).
Defined.

(** X14, on a concrete run. *)
Lemma sweep_keeps_request_fields_witness :
  let result := processPendingJobs generator_down two_pending in
  ~ In "destination" saved_fields /\
  field (snd result) "job-1" "destination" = field two_pending "job-1" "destination".
Proof.
  intros result.
  assert (Hout : ~ In "destination" saved_fields).
  { cbn. intros Hin. repeat (destruct Hin as [Hin|Hin]; [discriminate|]). exact Hin. }
  split; [exact Hout|].
  exact (sweep_keeps_request_fields
           generator_down two_pending (fst result) (snd result)
           (surjective_pairing result) "job-1" "destination" Hout).
Defined.

(** X15, on a concrete run. *)
Lemma failure_is_recorded_in_queue_witness :
  let err := Js (new_Error "LLM request failed: HTTP 503") in
  let result := recover generator_down "job-1" pending_job err one_pending in
  exists earlier message f,
    trace (snd result)
    = trace one_pending ++ earlier ++
      [Event (KV_put "job-1"
                (Serialized (Job "Tokyo, Japan" five "failed" 1754733600000 None
                                 (Some message)))) f].
Proof.
  intros err result.
  destruct (failure_is_recorded_in_queue
              generator_down "job-1" pending_job err one_pending
              (fst result) (snd result) (surjective_pairing result))
    as (earlier & message & f & Htrace & _).
  exists earlier, message, f. exact Htrace.
Defined.

(** X16, on a concrete run. *)
Lemma accepted_submission_is_queued_before_the_answer_witness :
  let result := post all_up (JsonBody tokyo_request) empty_world in
  fst result
  = Ret (HttpResponse 202 "job-1",
         [CreateItineraryDoc "job-1" "Tokyo, Japan" five_days 1754733600000;
          ProcessPendingJobs]) /\
  exists destination durationDays,
    payload_fields tokyo_request = Some (destination, durationDays) /\
    trace (snd result)
    = trace empty_world ++
      [Event (KV_put "job-1"
                (Serialized (Job destination (JSON_number durationDays) "pending"
                                 1754733600000 None None))) None;
       Issued getAccessToken;
       Issued KV_list].
Proof.
  intros result.
  assert (Hrun : post all_up (JsonBody tokyo_request) empty_world
                 = (Ret (HttpResponse 202 "job-1",
                         [CreateItineraryDoc "job-1" "Tokyo, Japan" five_days
                                             1754733600000;
                          ProcessPendingJobs]), snd result))
    by (vm_compute; reflexivity).
  split; [vm_compute; reflexivity|].
  destruct (accepted_submission_is_queued_before_the_answer
              all_up tokyo_request empty_world _ _ _ Hrun eq_refl)
    as (destination & durationDays & Hfields & _ & Htrace & _).
  exists destination, durationDays. split; assumption.
Defined.

End FurtherRuns.

(** ** llm.js: what generateItinerary returns *)

Section GeneratedValue.
Import Llm Retry.
Variable JSON_parse : string -> outcome js_error json.
Variable net : network.
Variable retries : Z.
Variable baseDelay : float.

(** A response the loop returns is the ok response of its last call. *)
Lemma loop_returns factor fuel : forall attempt log res log',
  fetchWithRetry_loop net retries baseDelay factor fuel attempt log
  = Some (Ret res, log') ->
  exists k,
    fetch net (attempt + k) = Responded res /\ ok res = true /\
    log' = log ++ rounds net baseDelay factor attempt k ++ [EvFetch].
Proof.
  induction fuel as [|fuel IH]; intros attempt log res log' Hrun; [discriminate|].
  destruct (retried (fetch net attempt) && (Z.of_nat attempt <? retries)) eqn:Hgo.
  - apply andb_true_iff in Hgo as [Hretried Hleft]. apply Z.ltb_lt in Hleft.
    rewrite loop_round in Hrun by assumption.
    apply IH in Hrun as (k & Hcall & Hok & ->). exists (S k).
    rewrite Nat.add_succ_r. split; [exact Hcall|]. split; [exact Hok|].
    rewrite rounds_S, <- !app_assoc. reflexivity.
  - cbn [fetchWithRetry_loop] in Hrun. apply andb_false_iff in Hgo.
    destruct (fetch net attempt) as [res0|err] eqn:Hcall; cbn [retried] in Hgo.
    + destruct (ok res0) eqn:Hok.
      * injection Hrun as <- <-. exists 0%nat. rewrite Nat.add_0_r.
        split; [exact Hcall|]. split; [exact Hok|]. reflexivity.
      * destruct Hgo as [Hgo|Hgo]; [discriminate|]. apply Z.ltb_ge in Hgo.
        apply Z.leb_le in Hgo. rewrite Hgo, orb_true_r in Hrun. discriminate.
    + destruct (String.eqb (err_name err) "AbortError"); [discriminate|].
      destruct Hgo as [Hgo|Hgo]; [discriminate|]. apply Z.ltb_ge in Hgo.
      apply Z.leb_le in Hgo. rewrite Hgo in Hrun. discriminate.
Qed.

(** Text made of white space only trims to the empty text. *)
Lemma trim_start_blank (l : list ascii) :
  (forall c, In c l -> is_space c = true) -> trim_start l = [].
Proof.
  induction l as [|c l IH]; intros Hblank; [reflexivity|].
  cbn [trim_start]. rewrite (Hblank c) by (left; reflexivity).
  apply IH. intros c' Hin. apply Hblank. right. exact Hin.
Qed.

Lemma trim_blank (raw : string) :
  (forall c, In c (list_ascii_of_string raw) -> is_space c = true) -> trim raw = "".
Proof.
  intros Hblank. unfold trim.
  rewrite (trim_start_blank (list_ascii_of_string raw) Hblank). reflexivity.
Qed.

(** X17: a value is returned only for the content of an ok response, the one
    of the last call: it is what [JSON.parse] makes of the trimmed
    content, or, when that is a syntax error, of the first bracketed span
    of the trimmed content.  No value comes from an empty content or from
    the body of a failed call. *)
Theorem generateItinerary_value_comes_from_ok_response v log :
  generateItinerary JSON_parse net retries baseDelay = Some (Ret v, log) ->
  exists k resp raw,
    fetch net k = Responded resp /\ ok resp = true /\
    fetches log = S k /\
    content resp = Ret (Some raw) /\ raw <> "" /\
    (JSON_parse (trim raw) = Ret v \/
     exists e arrText,
       JSON_parse (trim raw) = Throw e /\
       extractFirstJsonArray (trim raw) = Ret arrText /\
       JSON_parse arrText = Ret v).
Proof.
  unfold generateItinerary, fetchWithRetry.
  destruct (fetchWithRetry_loop _ _ _ _ _ _ _) as [[[resp|e] log0]|] eqn:Hrun;
    try discriminate.
  apply loop_returns in Hrun as (k & Hcall & Hok & Hlog). cbn [Nat.add app] in Hcall, Hlog.
  destruct (content resp) as [[raw|]|e] eqn:Hcontent; try discriminate.
  destruct (String.eqb raw "") eqn:Hraw; try discriminate.
  intros Hvalue. injection Hvalue as Hvalue <-.
  exists k, resp, raw. split; [exact Hcall|]. split; [exact Hok|].
  split; [rewrite Hlog; apply fetches_rounds|]. split; [exact Hcontent|].
  split; [apply String.eqb_neq; exact Hraw|].
  destruct (JSON_parse (trim raw)) as [v0|e] eqn:Hdirect.
  - left. exact Hvalue.
  - right. destruct (extractFirstJsonArray (trim raw)) as [arrText|e'] eqn:Hspan;
      [|discriminate].
    exists e, arrText. repeat split. exact Hvalue.
Qed.

(** X18: the emptiness check comes before the trim: a content that is not empty
    but holds white space only is not reported as an empty response; its
    trimmed text is empty, and the error is that of the array search. *)
Theorem generateItinerary_blank_content_reports_missing_array resp raw log e :
  fetchWithRetry net retries baseDelay 2 = Some (Ret resp, log) ->
  content resp = Ret (Some raw) ->
  raw <> "" ->
  (forall c, In c (list_ascii_of_string raw) -> is_space c = true) ->
  JSON_parse "" = Throw e ->
  generateItinerary JSON_parse net retries baseDelay
  = Some (Throw (new_Error "No JSON array start found"), log).
Proof.
  intros Hrun Hcontent Hraw Hblank Hparse. unfold generateItinerary.
  rewrite Hrun, Hcontent. apply String.eqb_neq in Hraw. rewrite Hraw.
  rewrite (trim_blank raw Hblank), Hparse. reflexivity.
Qed.

End GeneratedValue.

Section GeneratedValueRuns.
Import Llm Replies.

(** X17, on a concrete run. *)
Lemma generateItinerary_value_comes_from_ok_response_witness :
  generateItinerary parse_array_only (says "Sure: [] .") 3 500
  = Some (Ret (JArray []), [EvFetch]) /\
  exists k resp raw,
    fetch (says "Sure: [] .") k = Responded resp /\ ok resp = true /\
    fetches [EvFetch] = S k /\
    content resp = Ret (Some raw) /\ raw <> "" /\
    (parse_array_only (trim raw) = Ret (JArray []) \/
     exists e arrText,
       parse_array_only (trim raw) = Throw e /\
       extractFirstJsonArray (trim raw) = Ret arrText /\
       parse_array_only arrText = Ret (JArray [])).
Proof.
  split; [reflexivity|].
  exact (generateItinerary_value_comes_from_ok_response
           parse_array_only (says "Sure: [] .") 3 500 (JArray []) [EvFetch] eq_refl).
Defined.

(** X18, on a concrete run. *)
Lemma generateItinerary_blank_content_reports_missing_array_witness :
  generateItinerary parse_array_only (says "   ") 3 500
  = Some (Throw (new_Error "No JSON array start found"), [EvFetch]).
Proof.
  refine (generateItinerary_blank_content_reports_missing_array
            parse_array_only (says "   ") 3 500
            (Response 200 (Ret (Some "   "))) "   " [EvFetch]
            (JsError "SyntaxError" "Unexpected token")
            eq_refl eq_refl _ _ eq_refl).
  - discriminate.
  - intros c [<-|[<-|[<-|[]]]]; reflexivity.
Defined.

End GeneratedValueRuns.
